(** * FlowPay Coin: the ledger engine of [blockchain.js] and the block and
    transaction handlers of [network/node.js], embedded in Rocq.

    Conventions of the embedding.
    - A JavaScript string is a [string] (its UTF-8 bytes, which is what
      [TextEncoder] hands to the digest).
    - A JavaScript number that the program uses as a counter, a height, an
      index or a time stamp is an [N].  The nonce is an [N] together with
      the saturation of [nonce++] at [2^53].
    - An amount is a JavaScript number as it is: an IEEE 754 binary64
      [float], with the rounding of [+], [-], [*], [/], the comparisons,
      [Math.round] and the decimal text that [JSON.stringify] and template
      literals give it (module [Num]).
    - A 32-bit word of the digest is a [Z] in [0, 2^32): the bit pattern of
      the JavaScript int32, read unsigned as the final [v >>> 0] does.
    - The [Map] that holds the unspent outputs is an [omap UTXO]: its
      entries in insertion order, which is the order in which [getBalance]
      adds the amounts up, keyed by the very string the program builds.
    - The data of a message is typed: every field is there and has the type
      the program expects.  Where the program catches what a handler throws
      ([handleChainResponse], [handleNewTx]) module [Raw] follows it on data
      whose fields may be missing, since the node goes on from the state
      the throw left.
    - [Date.now()] and [performance.now()] are inputs of the operations that
      read them.  *)

From Stdlib Require Import ZArith NArith Lia Ascii String.
From Stdlib Require Import DecimalString HexadecimalString.
From Stdlib Require DecimalN.
From Stdlib Require Import Floats.
From stdpp Require Import gmap strings list fin_maps.

Local Close Scope float_scope.
Local Open Scope string_scope.
Local Open Scope list_scope.
Local Open Scope nat_scope.

(** ** JavaScript primitives used by the program *)

Module Js.

(** [String(n)] for a non-negative integer below [1e21]. *)
Definition string_of_N (n : N) : string :=
  DecimalString.NilZero.string_of_uint (N.to_uint n).

(** [n.toString(16)] for a non-negative integer. *)
Definition toString16 (n : N) : string :=
  HexadecimalString.NilZero.string_of_uint (N.to_hex_uint n).

(** [c.repeat(n)] for a one-character string. *)
Fixpoint repeat (c : ascii) (n : nat) : string :=
  match n with
  | O => ""
  | S k => String c (repeat c k)
  end.

(** [s.padStart(n, c)] for a one-character filler. *)
Definition padStart (n : nat) (c : ascii) (s : string) : string :=
  repeat c (n - String.length s) +:+ s.

(** [s.startsWith(t)]. *)
Definition startsWith (s t : string) : bool := String.prefix t s.

(** [a || b] on strings: the empty string is the only falsy string, and a
    missing array element ([undefined]) is falsy as well. *)
Definition or_else (a : option string) (b : string) : string :=
  match a with
  | Some (String c r) => String c r
  | _ => b
  end.

(** [n + 1] on a double holding an integer of [0 .. 2^53]: exact below
    [2^53], and [2^53 + 1] rounds back to [2^53]. *)
Definition incr (n : N) : N :=
  if (n <? 2 ^ 53)%N then (n + 1)%N else n.

(** [s.substring(0, n)]. *)
Definition take (n : nat) (s : string) : string := String.substring 0 n s.

End Js.

(** ** JavaScript numbers: IEEE 754 binary64 *)

Module Num.
Local Open Scope Z_scope.

(** The Number nearest to an integer (ties to even), as a numeric literal
    or an integer-valued expression denotes it. *)
Definition of_Z (z : Z) : float := SF2Prim (binary_normalize prec emax z 0 false).

(** [a >= b]: false when either side is [NaN]. *)
Definition ge (a b : float) : bool := (b <=? a)%float.

(** [Math.round(x)]: the nearest integer, a tie going towards [+∞]; the
    sign of a zero result is that of [x]. *)
Definition round (x : float) : float :=
  match Prim2SF x with
  | S754_finite s m e =>
      if 0 <=? e then x
      else
        let d := 2 ^ (- e) in
        let q := Z.pos m / d in
        let r := Z.pos m mod d in
        if s then PrimFloat.opp (of_Z (if d <? 2 * r then q + 1 else q))
        else of_Z (if d <=? 2 * r then q + 1 else q)
  | _ => x
  end.

(** *** [Number::toString], radix 10 *)

(** A positive rational [num / den], [den > 0]. *)
Definition frac : Type := (Z * Z)%type.

Definition frac_lt (a b : frac) : bool := fst a * snd b <? fst b * snd a.
Definition frac_le (a b : frac) : bool := fst a * snd b <=? fst b * snd a.

(** [m * 2^e]. *)
Definition dyadic (m e : Z) : frac :=
  if 0 <=? e then (m * 2 ^ e, 1) else (m, 2 ^ (- e)).

(** [s * 10^t]. *)
Definition decimal (s t : Z) : frac :=
  if 0 <=? t then (s * 10 ^ t, 1) else (s, 10 ^ (- t)).

(** The distance between two rationals. *)
Definition frac_dist (a b : frac) : frac :=
  (Z.abs (fst a * snd b - fst b * snd a), snd a * snd b).

(** The reals that round to the double [m * 2^e] (in canonical form) are
    those between [lo] and [hi], the two included when [m] is even. *)
Definition rounds_to (m e : Z) (v : frac) : bool :=
  let hi := dyadic (2 * m + 1) (e - 1) in
  let lo := if (m =? 2 ^ 52) && (-1074 <? e)
            then dyadic (4 * m - 1) (e - 2)
            else dyadic (2 * m - 1) (e - 1) in
  if Z.even m then frac_le lo v && frac_le v hi
  else frac_lt lo v && frac_lt v hi.

(** The [n] with [10^(n-1) <= x < 10^n], for [x = m * 2^e > 0]: searched
    downwards from an upper bound. *)
Fixpoint magnitude (fuel : nat) (n : Z) (x : frac) : Z :=
  match fuel with
  | O => n
  | S f => if frac_le (decimal 1 (n - 1)) x then n else magnitude f (n - 1) x
  end.

(** The candidates with [k] digits: [(s, n)] with [10^(k-1) <= s < 10^k]
    and [s * 10^(n-k)] rounding to the double. *)
Definition candidates (m e : Z) (nx k : Z) : list (Z * Z) :=
  let x := dyadic m e in
  List.filter
    (fun c => let '(s, n) := c in
              (10 ^ (k - 1) <=? s) && (s <? 10 ^ k)
              && rounds_to m e (decimal s (n - k)))
    (List.flat_map
       (fun n => let t := n - k in
                 let s0 := (fst x * snd (decimal 1 t)) / (snd x * fst (decimal 1 t)) in
                 [(s0, n); (s0 + 1, n)])
       [nx; nx + 1]).

(** Of the candidates, the one nearest to the double; of two at the same
    distance, the even one. *)
Definition nearest (m e k : Z) (cs : list (Z * Z)) : option (Z * Z) :=
  let x := dyadic m e in
  let dist c := frac_dist (decimal (fst c) (snd c - k)) x in
  fold_left
    (fun best c =>
       match best with
       | None => Some c
       | Some b =>
           if frac_lt (dist c) (dist b) then Some c
           else if frac_lt (dist b) (dist c) then Some b
           else if Z.even (fst c) then Some c else Some b
       end)
    cs None.

(** The least [k] that has a candidate, with the digits [s] and the
    position [n] of the decimal point. *)
Fixpoint shortest (fuel : nat) (m e nx k : Z) : Z * Z * Z :=
  match fuel with
  | O => (k, 0, 0)
  | S f =>
      match nearest m e k (candidates m e nx k) with
      | Some (s, n) => (k, s, n)
      | None => shortest f m e nx (k + 1)
      end
  end.

Definition digits (z : Z) : string := Js.string_of_N (Z.to_N z).

Definition drop (n : nat) (s : string) : string :=
  String.substring n (String.length s - n) s.

(** The text of a positive finite double. *)
Definition positive_to_string (m e : Z) : string :=
  let bits := Z.log2 m + e + 1 in
  let nx := magnitude 4%nat (bits * 30103 / 100000 + 2) (dyadic m e) in
  let '(k, s, n) := shortest 17%nat m e nx 1 in
  let ds := digits s in
  if (k <=? n) && (n <=? 21) then ds +:+ Js.repeat "0"%char (Z.to_nat (n - k))
  else if (0 <? n) && (n <=? 21)
  then Js.take (Z.to_nat n) ds +:+ "." +:+ drop (Z.to_nat n) ds
  else if (-6 <? n) && (n <=? 0)
  then "0." +:+ Js.repeat "0"%char (Z.to_nat (- n)) +:+ ds
  else
    let ex := n - 1 in
    let sign := if ex <? 0 then "-" else "+" in
    let mant := if k =? 1 then ds else Js.take 1 ds +:+ "." +:+ drop 1 ds in
    mant +:+ "e" +:+ sign +:+ digits (Z.abs ex).

(** [String(x)], which is also what a template literal and [x + ''] give. *)
Definition to_string (x : float) : string :=
  match Prim2SF x with
  | S754_nan => "NaN"
  | S754_zero _ => "0"
  | S754_infinity s => if s then "-Infinity" else "Infinity"
  | S754_finite s m e =>
      (if s then "-" else "") +:+ positive_to_string (Z.pos m) e
  end.

(** [JSON.stringify(x)]: a number that is not finite is written [null]. *)
Definition to_json (x : float) : string :=
  match Prim2SF x with
  | S754_nan | S754_infinity _ => "null"
  | _ => to_string x
  end.

End Num.

#[global] Instance float_eq_dec : EqDecision float.
Proof.
  intros x y. destruct (PrimFloat.Leibniz.eqb x y) eqn:E.
  - left. now apply FloatAxioms.Leibniz.eqb_spec.
  - right. intros H. apply FloatAxioms.Leibniz.eqb_spec in H. congruence.
Defined.

(** ** SHA-256, as [sha256] computes it *)

Module Sha256.
Local Open Scope Z_scope.

(** The table of round constants, eight to a line as in the source. *)
Definition SHA256_K : list Z :=
  Eval cbv [app] in
  [0x428a2f98; 0x71374491; 0xb5c0fbcf; 0xe9b5dba5] ++ [0x3956c25b; 0x59f111f1; 0x923f82a4; 0xab1c5ed5] ++
  [0xd807aa98; 0x12835b01; 0x243185be; 0x550c7dc3] ++ [0x72be5d74; 0x80deb1fe; 0x9bdc06a7; 0xc19bf174] ++
  [0xe49b69c1; 0xefbe4786; 0x0fc19dc6; 0x240ca1cc] ++ [0x2de92c6f; 0x4a7484aa; 0x5cb0a9dc; 0x76f988da] ++
  [0x983e5152; 0xa831c66d; 0xb00327c8; 0xbf597fc7] ++ [0xc6e00bf3; 0xd5a79147; 0x06ca6351; 0x14292967] ++
  [0x27b70a85; 0x2e1b2138; 0x4d2c6dfc; 0x53380d13] ++ [0x650a7354; 0x766a0abb; 0x81c2c92e; 0x92722c85] ++
  [0xa2bfe8a1; 0xa81a664b; 0xc24b8b70; 0xc76c51a3] ++ [0xd192e819; 0xd6990624; 0xf40e3585; 0x106aa070] ++
  [0x19a4c116; 0x1e376c08; 0x2748774c; 0x34b0bcb5] ++ [0x391c0cb3; 0x4ed8aa4a; 0x5b9cca4f; 0x682e6ff3] ++
  [0x748f82ee; 0x78a5636f; 0x84c87814; 0x8cc70208] ++ [0x90befffa; 0xa4506ceb; 0xbef9a3f7; 0xc67178f2].

(** The low 32 bits that a JavaScript integer operation keeps ([x | 0], or
    a store into a [Uint32Array]), read unsigned. *)
Definition u32 (x : Z) : Z := Z.land x 0xFFFFFFFF.

(** [rot = (v, n) => (v >>> n) | (v << (32 - n))]. *)
Definition rot (v n : Z) : Z :=
  u32 (Z.lor (Z.shiftr v n) (Z.shiftl v (32 - n))).

Definition bytes_of (message : string) : list Z :=
  List.map (fun c => Z.of_N (N_of_ascii c)) (list_ascii_of_string message).

(** [dv.setUint32(_, v, false)]: four bytes, big endian. *)
Definition be32 (v : Z) : list Z :=
  [ Z.shiftr (u32 v) 24; Z.land (Z.shiftr (u32 v) 16) 255;
    Z.land (Z.shiftr (u32 v) 8) 255; Z.land (u32 v) 255 ].

(** The padded buffer: [padLen] zero bytes, the message bytes at the
    front, [0x80] after them, the bit length in the last four bytes. *)
Definition padded (bytes : list Z) : list Z :=
  let len := Z.of_nat (length bytes) in
  let bitLen := len * 8 in
  let padLen := ((len + 9 + 63) / 64) * 64 in
  bytes ++ [0x80] ++ List.repeat 0 (Z.to_nat (padLen - len - 1 - 4)) ++ be32 bitLen.

(** [dv.getUint32(off + i * 4, false)] for the sixteen words of a block. *)
Fixpoint words (n : nat) (block : list Z) : list Z :=
  match n, block with
  | S k, b0 :: b1 :: b2 :: b3 :: rest =>
      (Z.shiftl b0 24 + Z.shiftl b1 16 + Z.shiftl b2 8 + b3) :: words k rest
  | _, _ => []
  end.

Definition w_at (w : list Z) (i : nat) : Z := List.nth i w 0.

(** The message schedule: [w[16 .. 63]] appended one at a time. *)
Fixpoint schedule (n : nat) (i : nat) (w : list Z) : list Z :=
  match n with
  | O => w
  | S k =>
      let w15 := w_at w (i - 15) in
      let w2 := w_at w (i - 2) in
      let s0 := Z.lxor (Z.lxor (rot w15 7) (rot w15 18)) (Z.shiftr w15 3) in
      let s1 := Z.lxor (Z.lxor (rot w2 17) (rot w2 19)) (Z.shiftr w2 10) in
      schedule k (S i) (w ++ [u32 (w_at w (i - 16) + s0 + w_at w (i - 7) + s1)])
  end.

Record regs := Regs { ra : Z; rb : Z; rc : Z; rd : Z; re : Z; rf : Z; rg : Z; rh : Z }.

(** One of the sixty-four rounds. *)
Definition round (r : regs) (k w : Z) : regs :=
  let '(Regs a b c d e f g h) := r in
  let S1 := Z.lxor (Z.lxor (rot e 6) (rot e 11)) (rot e 25) in
  let ch := Z.lxor (Z.land e f) (Z.land (Z.lnot e) g) in
  let t1 := u32 (h + S1 + ch + k + w) in
  let S0 := Z.lxor (Z.lxor (rot a 2) (rot a 13)) (rot a 22) in
  let maj := Z.lxor (Z.lxor (Z.land a b) (Z.land a c)) (Z.land b c) in
  let t2 := u32 (S0 + maj) in
  Regs (u32 (t1 + t2)) a b c (u32 (d + t1)) e f g.

Fixpoint rounds (r : regs) (ks ws : list Z) : regs :=
  match ks, ws with
  | k :: ks', w :: ws' => rounds (round r k w) ks' ws'
  | _, _ => r
  end.

(** The body of the loop over the 64-byte blocks. *)
Definition compress (h : regs) (block : list Z) : regs :=
  let w := schedule 48 16 (words 16 block) in
  let '(Regs a b c d e f g hh) := rounds h SHA256_K w in
  Regs (u32 (ra h + a)) (u32 (rb h + b)) (u32 (rc h + c)) (u32 (rd h + d))
       (u32 (re h + e)) (u32 (rf h + f)) (u32 (rg h + g)) (u32 (rh h + hh)).

Fixpoint blocks (n : nat) (h : regs) (buf : list Z) : regs :=
  match n with
  | O => h
  | S k => blocks k (compress h (List.firstn 64 buf)) (List.skipn 64 buf)
  end.

Definition h_init : regs :=
  Regs 0x6a09e667 0xbb67ae85 0x3c6ef372 0xa54ff53a
       0x510e527f 0x9b05688c 0x1f83d9ab 0x5be0cd19.

(** [(v >>> 0).toString(16).padStart(8, '0')]. *)
Definition hex8 (v : Z) : string :=
  Js.padStart 8 "0"%char (Js.toString16 (Z.to_N (u32 v))).

Definition sha256 (message : string) : string :=
  let buf := padded (bytes_of message) in
  let '(Regs h0 h1 h2 h3 h4 h5 h6 h7) := blocks (length buf / 64) h_init buf in
  hex8 h0 +:+ hex8 h1 +:+ hex8 h2 +:+ hex8 h3 +:+ hex8 h4 +:+ hex8 h5 +:+ hex8 h6 +:+ hex8 h7.

End Sha256.

Definition sha256 := Sha256.sha256.

(** ** The ledger entities *)

(** [{txHash, outputIndex}]: a reference to an output of an earlier
    transaction. *)
Record TxInput := mkInput { in_txHash : string; in_outputIndex : N }.

(** [{address, amount}]. *)
Record TxOutput := mkOutput { out_address : string; out_amount : float }.

(** The value stored in the unspent-output map. *)
Record UTXO := mkUTXO { utxo_address : string; utxo_amount : float }.

Record Transaction := mkTx {
  tx_inputs : list TxInput;
  tx_outputs : list TxOutput;
  tx_signatures : list string;
  tx_isCoinbase : bool;
  tx_timestamp : N;
  tx_hash : string
}.

(** An entry of [WALLET_REGISTRY]: the map sends a public key to the wallet
    that owns it; the list keeps the map's insertion order. *)
Record Wallet := mkWallet { w_privateKey : string; w_address : string }.

Abbreviation Registry := (list (string * Wallet)).

(** *** Keys and signatures *)

Definition derivePublicKey (privateKey : string) : string := sha256 privateKey.

Definition deriveAddress (publicKey : string) : string :=
  Js.take 40 (sha256 publicKey).

Definition signData (data privateKey : string) : string :=
  sha256 (data +:+ privateKey).

(** [WALLET_REGISTRY.get(publicKey)]. *)
Definition registry_get (reg : Registry) (publicKey : string) : option Wallet :=
  snd <$> List.find (fun e => String.eqb (fst e) publicKey) reg.

(** [verifySignature]; the signature is [this.signatures[i]], which is
    [undefined] ([None]) past the end of the array. *)
Definition verifySignature (reg : Registry) (data : string)
    (signature : option string) (publicKey : string) : bool :=
  match registry_get reg publicKey with
  | None => false
  | Some wallet =>
      match signature with
      | Some s => String.eqb (sha256 (data +:+ w_privateKey wallet)) s
      | None => false
      end
  end.

(** *** [JSON.stringify] of the object that [computeHash] digests *)

Module Json.

Definition dquote : ascii := Eval cbv in ascii_of_nat 34.
Definition backslash : ascii := Eval cbv in ascii_of_nat 92.

(** One character of a quoted string. *)
Definition escape (c : ascii) : string :=
  let n := nat_of_ascii c in
  if Nat.eqb n 34 then String backslash (String dquote "")
  else if Nat.eqb n 92 then String backslash (String backslash "")
  else if Nat.eqb n 8 then String backslash "b"
  else if Nat.eqb n 9 then String backslash "t"
  else if Nat.eqb n 10 then String backslash "n"
  else if Nat.eqb n 12 then String backslash "f"
  else if Nat.eqb n 13 then String backslash "r"
  else if Nat.ltb n 32 then
    String backslash ("u" +:+ Js.padStart 4 "0"%char (Js.toString16 (N.of_nat n)))
  else String c "".

Fixpoint escape_all (s : string) : string :=
  match s with
  | EmptyString => ""
  | String c r => escape c +:+ escape_all r
  end.

Definition str (s : string) : string :=
  String dquote (escape_all s +:+ String dquote "").

(** ["key":] *)
Definition key (k : string) : string := str k +:+ ":".

Fixpoint join (l : list string) : string :=
  match l with
  | [] => ""
  | [x] => x
  | x :: r => x +:+ "," +:+ join r
  end.

Definition array (l : list string) : string := "[" +:+ join l +:+ "]".
Definition object (l : list string) : string := "{" +:+ join l +:+ "}".
Definition bool (b : bool) : string := if b then "true" else "false".

Definition input (i : TxInput) : string :=
  object [ key "txHash" +:+ str (in_txHash i);
           key "outputIndex" +:+ Js.string_of_N (in_outputIndex i) ].

Definition output (o : TxOutput) : string :=
  object [ key "address" +:+ str (out_address o);
           key "amount" +:+ Num.to_json (out_amount o) ].

End Json.

(** *** Transaction *)

Definition computeHash (inputs : list TxInput) (outputs : list TxOutput)
    (timestamp : N) (isCoinbase : bool) : string :=
  sha256 (Json.object
    [ Json.key "inputs" +:+ Json.array (List.map Json.input inputs);
      Json.key "outputs" +:+ Json.array (List.map Json.output outputs);
      Json.key "timestamp" +:+ Js.string_of_N timestamp;
      Json.key "isCoinbase" +:+ Json.bool isCoinbase ]).

(** [new Transaction(inputs, outputs, isCoinbase)], built at time [now]. *)
Definition newTransaction (now : N) (inputs : list TxInput)
    (outputs : list TxOutput) (isCoinbase : bool) : Transaction :=
  mkTx inputs outputs [] isCoinbase now (computeHash inputs outputs now isCoinbase).

(** [tx.sign(privateKey)]: one signature is pushed per input. *)
Definition sign (tx : Transaction) (privateKey : string) : Transaction :=
  mkTx (tx_inputs tx) (tx_outputs tx)
       (tx_signatures tx ++ List.map (fun _ => signData (tx_hash tx) privateKey) (tx_inputs tx))
       (tx_isCoinbase tx) (tx_timestamp tx) (tx_hash tx).

Definition zeros64 : string := Eval cbv in Js.repeat "0"%char 64.

Definition createCoinbase (now : N) (address : string) (reward : float)
    (blockHeight : N) : Transaction :=
  newTransaction now [mkInput zeros64 blockHeight] [mkOutput address reward] true.

(** The key of the unspent-output map: [`${txHash}:${outputIndex}`]. *)
Definition utxoKey (txHash : string) (outputIndex : N) : string :=
  txHash +:+ ":" +:+ Js.string_of_N outputIndex.

Definition inputKey (inp : TxInput) : string :=
  utxoKey (in_txHash inp) (in_outputIndex inp).

(** ** [Map]: the entries in insertion order *)

Record omap (V : Type) := OMap { entries : list (string * V) }.
Arguments OMap {V} _.
Arguments entries {V} _.

(** [map.get(key)]. *)
Fixpoint assoc {V : Type} (key : string) (l : list (string * V)) : option V :=
  match l with
  | [] => None
  | (k, v) :: rest => if String.eqb k key then Some v else assoc key rest
  end.

(** [map.set(key, value)]: the value of a key that is there is replaced
    where it stands; a new key goes to the end. *)
Fixpoint assoc_set {V : Type} (key : string) (value : V) (l : list (string * V))
    : list (string * V) :=
  match l with
  | [] => [(key, value)]
  | (k, v) :: rest =>
      if String.eqb k key then (k, value) :: rest else (k, v) :: assoc_set key value rest
  end.

(** [map.delete(key)]. *)
Fixpoint assoc_delete {V : Type} (key : string) (l : list (string * V))
    : list (string * V) :=
  match l with
  | [] => []
  | (k, v) :: rest =>
      if String.eqb k key then rest else (k, v) :: assoc_delete key rest
  end.

#[global] Instance omap_lookup {V : Type} : Lookup string V (omap V) :=
  fun key m => assoc key (entries m).
#[global] Instance omap_insert {V : Type} : Insert string V (omap V) :=
  fun key value m => OMap (assoc_set key value (entries m)).
#[global] Instance omap_delete {V : Type} : Delete string (omap V) :=
  fun key m => OMap (assoc_delete key (entries m)).
#[global] Instance omap_empty {V : Type} : Empty (omap V) := OMap [].
#[global] Instance omap_size {V : Type} : Size (omap V) :=
  fun m => length (entries m).

Section Verify.
Variable reg : Registry.
Variable utxoSet : omap UTXO.

(** The search of the registry for a wallet that owns the output and
    whose key verifies the [i]-th signature. *)
Definition ownerSigned (hash : string) (signature : option string)
    (utxo : UTXO) : bool :=
  existsb (fun e =>
             String.eqb (w_address (snd e)) (utxo_address utxo)
             && verifySignature reg hash signature (fst e)) reg.

(** The loop over the inputs of [verify], from index [i] on. *)
Fixpoint verifyInputs (hash : string) (signatures : list string) (i : nat)
    (inputs : list TxInput) : bool :=
  match inputs with
  | [] => true
  | inp :: rest =>
      match utxoSet !! inputKey inp with
      | None => false
      | Some utxo =>
          if ownerSigned hash (signatures !! i) utxo
          then verifyInputs hash signatures (S i) rest
          else false
      end
  end.

(** [utxo ? utxo.amount : 0] for the output that [inp] refers to. *)
Definition resolvedAmount (inp : TxInput) : float :=
  match utxoSet !! inputKey inp with
  | Some utxo => utxo_amount utxo
  | None => 0%float
  end.

(** [this.inputs.reduce((sum, inp) => sum + ..., 0)]: the amounts are added
    one by one, from the left, each sum rounded to a double. *)
Definition getInputTotal (tx : Transaction) : float :=
  fold_left (fun sum inp => (sum + resolvedAmount inp)%float) (tx_inputs tx) 0%float.

(** [this.outputs.reduce((sum, out) => sum + out.amount, 0)]. *)
Definition outputTotal (tx : Transaction) : float :=
  fold_left (fun sum out => (sum + out_amount out)%float) (tx_outputs tx) 0%float.

(** [verify]; its last line is [return inputSum >= outputSum]. *)
Definition verify (tx : Transaction) : bool :=
  if tx_isCoinbase tx then true
  else if verifyInputs (tx_hash tx) (tx_signatures tx) 0 (tx_inputs tx)
       then Num.ge (getInputTotal tx) (outputTotal tx)
       else false.

End Verify.

(** ** MerkleTree *)

(** A step of an inclusion proof: [{hash, position}]. *)
Record ProofStep := mkStep { step_hash : string; step_position : string }.

(** One run of the inner [for] loop of [computeRoot]: adjacent entries are
    digested in pairs, [right] ([rgt]) falling back on [left] ([lft]). *)
Fixpoint nextLevel (level : list string) : list string :=
  match level with
  | [] => []
  | [lft] => [sha256 (lft +:+ Js.or_else None lft)]
  | lft :: r :: rest => sha256 (lft +:+ Js.or_else (Some r) lft) :: nextLevel rest
  end.

(** The [while (level.length > 1)] loop; [fuel] bounds the number of
    iterations ([rootLoop_exit] shows that the length of the leaf list is
    enough for the loop to leave by its own test). *)
Fixpoint rootLoop (fuel : nat) (level : list string) : list string :=
  match fuel with
  | O => level
  | S f => if (1 <? length level)%nat then rootLoop f (nextLevel level) else level
  end.

Definition computeRoot (hashes : list string) : string :=
  if (length hashes =? 0)%nat then sha256 ""
  else List.hd "" (rootLoop (length hashes) hashes).

(** What the [if (i === idx - (idx % 2))] of [getProof] pushes for the pair
    at position [i]. *)
Definition pushStep (idx i : nat) (lft rgt : string) : list ProofStep :=
  if (i =? idx - idx mod 2)%nat then
    if (idx mod 2 =? 0)%nat then [mkStep rgt "right"] else [mkStep lft "left"]
  else [].

(** One run of the inner [for] loop of [getProof], from position [i] on:
    the next level and the steps pushed on the proof. *)
Fixpoint proofPass (idx i : nat) (level : list string) : list string * list ProofStep :=
  match level with
  | [] => ([], [])
  | [lft] =>
      let rgt := Js.or_else None lft in
      ([sha256 (lft +:+ rgt)], pushStep idx i lft rgt)
  | lft :: r :: rest =>
      let rgt := Js.or_else (Some r) lft in
      let '(next, pushed) := proofPass idx (i + 2) rest in
      (sha256 (lft +:+ rgt) :: next, pushStep idx i lft rgt ++ pushed)
  end.

Fixpoint proofLoop (fuel : nat) (level : list string) (idx : nat) : list ProofStep :=
  match fuel with
  | O => []
  | S f =>
      if (1 <? length level)%nat then
        let '(next, pushed) := proofPass idx 0 level in
        pushed ++ proofLoop f next (idx / 2)
      else []
  end.

Definition getProof (hashes : list string) (index : nat) : list ProofStep :=
  if (length hashes <=? 1)%nat then [] else proofLoop (length hashes) hashes index.

Definition applyStep (hash : string) (step : ProofStep) : string :=
  if String.eqb (step_position step) "right"
  then sha256 (hash +:+ step_hash step)
  else sha256 (step_hash step +:+ hash).

Definition verifyProof (txHash : string) (proof : list ProofStep) (root : string) : bool :=
  String.eqb (fold_left applyStep proof txHash) root.

(** ** Block *)

Record Block := mkBlock {
  blk_height : N;
  blk_previousHash : string;
  blk_transactions : list Transaction;
  blk_difficulty : N;
  blk_timestamp : N;
  blk_merkleRoot : string;
  blk_nonce : N;
  blk_hash : string;
  blk_miningTime : N
}.

(** [new Block(height, previousHash, transactions, difficulty)], built at
    time [now]. *)
Definition newBlock (now : N) (height : N) (previousHash : string)
    (transactions : list Transaction) (difficulty : N) : Block :=
  mkBlock height previousHash transactions difficulty now
          (computeRoot (List.map tx_hash transactions)) 0 "" 0.

Definition getHeaderString (b : Block) : string :=
  Js.string_of_N (blk_height b) +:+ ":" +:+ blk_previousHash b +:+ ":" +:+
  blk_merkleRoot b +:+ ":" +:+ Js.string_of_N (blk_timestamp b) +:+ ":" +:+
  Js.string_of_N (blk_difficulty b) +:+ ":" +:+ Js.string_of_N (blk_nonce b).

Definition set_nonce (b : Block) (nonce : N) : Block :=
  mkBlock (blk_height b) (blk_previousHash b) (blk_transactions b) (blk_difficulty b)
          (blk_timestamp b) (blk_merkleRoot b) nonce (blk_hash b) (blk_miningTime b).

Definition set_hash (b : Block) (hash : string) : Block :=
  mkBlock (blk_height b) (blk_previousHash b) (blk_transactions b) (blk_difficulty b)
          (blk_timestamp b) (blk_merkleRoot b) (blk_nonce b) hash (blk_miningTime b).

Definition set_miningTime (b : Block) (t : N) : Block :=
  mkBlock (blk_height b) (blk_previousHash b) (blk_transactions b) (blk_difficulty b)
          (blk_timestamp b) (blk_merkleRoot b) (blk_nonce b) (blk_hash b) t.

(** ['0'.repeat(difficulty)], for a difficulty within the length that the
    engine allows a string (the call throws a [RangeError] beyond it); the
    digests it is compared with have 64 characters. *)
Definition target (difficulty : N) : string := Js.repeat "0"%char (N.to_nat difficulty).

(** The body of the [do ... while]: [this.nonce++] and the new digest. *)
Definition mineStep (b : Block) : Block :=
  let b1 := set_nonce b (Js.incr (blk_nonce b)) in
  set_hash b1 (sha256 (getHeaderString b1)).

(** The [do ... while] loop of [mine]; [None] when [fuel] iterations did
    not reach a qualifying digest.  The result carries [attempts]. *)
Fixpoint mineLoop (fuel : nat) (b : Block) (attempts : N) : option (Block * N) :=
  match fuel with
  | O => None
  | S f =>
      let b1 := mineStep b in
      if Js.startsWith (blk_hash b1) (target (blk_difficulty b1))
      then Some (b1, (attempts + 1)%N)
      else mineLoop f b1 (attempts + 1)%N
  end.

(** [block.mine()], which took [elapsed] milliseconds: the mined block and
    the number of attempts. *)
Definition mine (fuel : nat) (elapsed : N) (b : Block) : option (Block * N) :=
  match mineLoop fuel b 0 with
  | Some (b1, attempts) => Some (set_miningTime b1 elapsed, attempts)
  | None => None
  end.

(** ** Blockchain: chain, unspent outputs, mempool *)

Definition MINING_REWARD : float := 50.

Record MiningStats := mkStats { totalBlocks : N; totalHashes : N; totalTime : N }.

(** The fields of a [Blockchain] object.  The two observer callbacks
    ([onBlockMined], [onMempoolUpdate]) are [null] unless a user interface
    installs them, and are left out. *)
Record Blockchain := mkChain {
  chain : list Block;
  utxoSet : omap UTXO;
  mempool : list Transaction;
  difficulty : N;
  miningStats : MiningStats
}.

(** [new Blockchain(difficulty)]. *)
Definition newBlockchain (difficulty : N) : Blockchain :=
  mkChain [] ∅ [] difficulty (mkStats 0 0 0).

(** What a call can end with besides a value: [throw new Error(message)],
    or the [TypeError] of reading a property of [undefined]. *)
Inductive exn := Error (message : string) | TypeError.

Inductive outcome (A : Type) := Returned (a : A) | Thrown (e : exn).
Arguments Returned {A} a.
Arguments Thrown {A} e.

Definition InvalidTransaction : exn := Error "Invalid transaction".

(** The values that [Date.now()] and [performance.now()] yield during one
    mining operation. *)
Record Clock := mkClock { txTime : N; blockTime : N; elapsed : N }.

(** *** [_processBlockUTXOs] *)

(** The loop that deletes the outputs a transaction spends. *)
Definition spendInputs (tx : Transaction) (u : omap UTXO) : omap UTXO :=
  if tx_isCoinbase tx then u
  else fold_left (fun m inp => delete (inputKey inp) m) (tx_inputs tx) u.

(** [tx.outputs.forEach((out, idx) => this.utxoSet.set(...))], from index
    [idx] on. *)
Fixpoint addOutputs (txHash : string) (idx : N) (outputs : list TxOutput)
    (u : omap UTXO) : omap UTXO :=
  match outputs with
  | [] => u
  | out :: rest =>
      addOutputs txHash (idx + 1) rest
        (<[utxoKey txHash idx := mkUTXO (out_address out) (out_amount out)]> u)
  end.

Definition processTx (u : omap UTXO) (tx : Transaction) : omap UTXO :=
  addOutputs (tx_hash tx) 0 (tx_outputs tx) (spendInputs tx u).

Definition _processBlockUTXOs (u : omap UTXO) (block : Block) : omap UTXO :=
  fold_left processTx (blk_transactions block) u.

(** *** Balances *)

(** [Math.round(balance * 100) / 100]. *)
Definition round2 (balance : float) : float := (Num.round (balance * 100) / 100)%float.

(** The body of the loop of [getBalance] for one entry of the map. *)
Definition credit (address : string) (balance : float) (entry : string * UTXO) : float :=
  if String.eqb (utxo_address (snd entry)) address
  then (balance + utxo_amount (snd entry))%float else balance.

(** The loop of [getBalance] over the entries, in the order of the map:
    [balance] before it is rounded to cents. *)
Definition balanceSum (u : omap UTXO) (address : string) : float :=
  fold_left (credit address) (entries u) 0%float.

Definition getBalance (bc : Blockchain) (address : string) : float :=
  round2 (balanceSum (utxoSet bc) address).

(** *** The operations that change the state *)

Definition set_mempool (bc : Blockchain) (m : list Transaction) : Blockchain :=
  mkChain (chain bc) (utxoSet bc) m (difficulty bc) (miningStats bc).

(** [this.chain.push(block); this._processBlockUTXOs(block)]. *)
Definition pushBlock (bc : Blockchain) (block : Block) : Blockchain :=
  mkChain (chain bc ++ [block]) (_processBlockUTXOs (utxoSet bc) block)
          (mempool bc) (difficulty bc) (miningStats bc).

Definition recordMining (bc : Blockchain) (attempts time : N) : Blockchain :=
  mkChain (chain bc) (utxoSet bc) (mempool bc) (difficulty bc)
          (mkStats (totalBlocks (miningStats bc) + 1)
                   (totalHashes (miningStats bc) + attempts)
                   (totalTime (miningStats bc) + time)).

(** [initialize(genesisAddress)]; [None] when the proof-of-work search did
    not finish within [fuel] attempts. *)
Definition initialize (fuel : nat) (clock : Clock) (bc : Blockchain)
    (genesisAddress : string) : option (Block * Blockchain) :=
  let coinbase :=
    createCoinbase (txTime clock) genesisAddress (MINING_REWARD * 100)%float 0 in
  let genesis := newBlock (blockTime clock) 0 zeros64 [coinbase] (difficulty bc) in
  match mine fuel (elapsed clock) genesis with
  | None => None
  | Some (genesis', attempts) =>
      Some (genesis', recordMining (pushBlock bc genesis') attempts (elapsed clock))
  end.

(** [addToMempool(tx)]: what the call ends with, and the state after it. *)
Definition addToMempool (reg : Registry) (bc : Blockchain) (tx : Transaction)
    : outcome bool * Blockchain :=
  if negb (tx_isCoinbase tx) && negb (verify reg (utxoSet bc) tx)
  then (Thrown InvalidTransaction, bc)
  else (Returned true, set_mempool bc (mempool bc ++ [tx])).

(** [mineBlock(minerAddress)]; [None] when the proof-of-work search did not
    finish within [fuel] attempts. *)
Definition mineBlock (fuel : nat) (clock : Clock) (bc : Blockchain)
    (minerAddress : string) : option (outcome (Block * Blockchain)) :=
  let height := N.of_nat (length (chain bc)) in
  let coinbase := createCoinbase (txTime clock) minerAddress MINING_REWARD height in
  let txs := coinbase :: mempool bc in
  match last (chain bc) with
  | None => Some (Thrown TypeError)
  | Some tip =>
      let block := newBlock (blockTime clock) height (blk_hash tip) txs (difficulty bc) in
      match mine fuel (elapsed clock) block with
      | None => None
      | Some (block', attempts) =>
          Some (Returned (block',
                  recordMining (set_mempool (pushBlock bc block') []) attempts (elapsed clock)))
      end
  end.

(** *** [validateChain] *)

Inductive validation := Valid | Invalid (block : nat) (reason : string).

(** The four checks on a block whose predecessor is [prev]: the reason of
    the first one that fails, [None] when it passes them all. *)
Definition checkBlock (prev block : Block) : option string :=
  if negb (String.eqb (blk_previousHash block) (blk_hash prev))
  then Some "broken hash link"
  else if negb (Js.startsWith (blk_hash block) (target (blk_difficulty block)))
  then Some "invalid PoW"
  else if negb (String.eqb (sha256 (getHeaderString block)) (blk_hash block))
  then Some "hash mismatch"
  else if negb (String.eqb (computeRoot (List.map tx_hash (blk_transactions block)))
                           (blk_merkleRoot block))
  then Some "merkle mismatch"
  else None.

(** The loop of [validateChain] from index [i] on. *)
Fixpoint validateFrom (i : nat) (prev : Block) (rest : list Block) : validation :=
  match rest with
  | [] => Valid
  | block :: rest' =>
      match checkBlock prev block with
      | Some reason => Invalid i reason
      | None => validateFrom (S i) block rest'
      end
  end.

Definition validateChain (bc : Blockchain) : validation :=
  match chain bc with
  | [] => Valid
  | genesis :: rest => validateFrom 1 genesis rest
  end.

(** ** The node: handlers of [network/node.js] *)

(** What a handler does besides changing the ledger. *)
Inductive effect :=
| SendRequestChain
| SaveChain
| BroadcastNewBlock (blockData : Block)
| BroadcastNewTx (txData : Transaction).

(** The transaction rebuilt from its wire form: [new Transaction(...)]
    followed by the stores into [timestamp], [hash] and [signatures]. *)
Definition restoreTx (txd : Transaction) : Transaction :=
  mkTx (tx_inputs txd) (tx_outputs txd) (tx_signatures txd) (tx_isCoinbase txd)
       (tx_timestamp txd) (tx_hash txd).

(** The block rebuilt from its wire form: [new Block(...)] followed by the
    stores into [timestamp], [merkleRoot], [nonce], [hash], [miningTime]. *)
Definition restoreBlock (blockData : Block) : Block :=
  mkBlock (blk_height blockData) (blk_previousHash blockData)
          (List.map restoreTx (blk_transactions blockData)) (blk_difficulty blockData)
          (blk_timestamp blockData) (blk_merkleRoot blockData) (blk_nonce blockData)
          (blk_hash blockData) (blk_miningTime blockData).

(** [rebuildChainFromData(data)] on typed data, where it cannot throw. *)
Definition rebuildChainFromData (bc : Blockchain) (data : list Block) : Blockchain :=
  fold_left (fun bc' blockData => pushBlock bc' (restoreBlock blockData)) data bc.

Definition handleNewBlock (bc : Blockchain) (blockData : Block)
    : outcome (Blockchain * list effect) :=
  match last (chain bc) with
  | None => Thrown TypeError
  | Some lastBlock =>
      if negb (String.eqb (blk_previousHash blockData) (blk_hash lastBlock)) then
        Returned (bc, if (N.of_nat (length (chain bc)) <? blk_height blockData)%N
                      then [SendRequestChain] else [])
      else if negb (Js.startsWith (blk_hash blockData) (target (blk_difficulty blockData)))
      then Returned (bc, [])
      else
        let block := restoreBlock blockData in
        let bc1 := pushBlock bc block in
        let confirmedHashes := List.map tx_hash (blk_transactions block) in
        let bc2 := set_mempool bc1
          (List.filter (fun t => negb (existsb (String.eqb (tx_hash t)) confirmedHashes))
                       (mempool bc1)) in
        Returned (bc2, [SaveChain; BroadcastNewBlock blockData])
  end.

(** [blockchain.chain = []; blockchain.utxoSet = new Map()]. *)
Definition resetLedger (bc : Blockchain) : Blockchain :=
  mkChain [] ∅ (mempool bc) (difficulty bc) (miningStats bc).

(** [handleChainResponse] on typed data, where nothing is thrown inside its
    [try] ([Raw.handleChainResponse] has the [catch]).  The first rebuild
    is the one made through
    [rebuildChainFromData.call({ blockchain: tempBlockchain }, chainData)]:
    the function reads the module's [blockchain], not [this], so it too
    runs on the node's own ledger. *)
Definition handleChainResponse (bc : Blockchain) (chainData : list Block)
    : Blockchain * list effect :=
  if (length chainData <=? length (chain bc))%nat then (bc, [])
  else
    let bc1 := rebuildChainFromData bc chainData in
    let bc2 := resetLedger bc1 in
    (rebuildChainFromData bc2 chainData, [SaveChain]).

(** [handleNewTx] on typed data, where the only thing thrown inside its
    [try] is the [Error] of [addToMempool] ([Raw.handleNewTx] has the throw
    of the line that logs the transaction). *)
Definition handleNewTx (reg : Registry) (bc : Blockchain) (txData : Transaction)
    : Blockchain * list effect :=
  if existsb (fun t => String.eqb (tx_hash t) (tx_hash txData)) (mempool bc)
  then (bc, [])
  else
    match addToMempool reg bc (restoreTx txData) with
    | (Returned _, bc') => (bc', [BroadcastNewTx txData])
    | (Thrown _, bc') => (bc', [])
    end.

(** ** The handlers that catch what they throw, on data whose fields may
    be missing *)

(** [handleChainResponse] and [handleNewTx] run their work inside
    [try ... catch]: when the data of the message makes the program throw,
    the node logs the error and goes on from the state the throw left.
    This module follows the two handlers, and the functions they call, on
    data in which any field of a transaction, of a block, of an input and
    of an output may be missing ([None], the [undefined] that reading the
    property gives), a field that is there having the type the program
    expects.  The objects that the handlers build keep those holes, so the
    ledger of this module holds such objects. *)

Module Raw.

(** [`${x}`] for [x] a string, or a number, that may be [undefined]. *)
Definition str (x : option string) : string := default "undefined" x.
Definition strN (x : option N) : string := from_option Js.string_of_N "undefined" x.

(** A number in [sum + x]: [undefined] is [NaN] there. *)
Definition num (x : option float) : float := default nan x.

Record Input := mkInput { i_txHash : option string; i_outputIndex : option N }.

Record Output := mkOutput { o_address : option string; o_amount : option float }.

(** [{address: out.address, amount: out.amount}], the value stored in
    the unspent-output map. *)
Record Utxo := mkUtxo { u_address : option string; u_amount : option float }.

(** The data of a transaction in a message. *)
Record TxData := mkTxData {
  d_inputs : option (list Input);
  d_outputs : option (list Output);
  d_signatures : option (list string);
  d_isCoinbase : option bool;
  d_timestamp : option N;
  d_hash : option string
}.

(** The [Transaction] object that the handlers build from it. *)
Record Tx := mkTx {
  t_inputs : option (list Input);
  t_outputs : option (list Output);
  t_signatures : list string;
  t_isCoinbase : bool;
  t_timestamp : option N;
  t_hash : option string
}.

(** The data of a block in a message. *)
Record BlockData := mkBlockData {
  bd_height : option N;
  bd_previousHash : option string;
  bd_transactions : option (list TxData);
  bd_difficulty : option N;
  bd_timestamp : option N;
  bd_merkleRoot : option string;
  bd_nonce : option N;
  bd_hash : option string;
  bd_miningTime : option N
}.

(** The [Block] object built from it. *)
Record Blk := mkBlock {
  b_height : option N;
  b_previousHash : option string;
  b_transactions : list Tx;
  b_difficulty : option N;
  b_timestamp : option N;
  b_merkleRoot : option string;
  b_nonce : option N;
  b_hash : option string;
  b_miningTime : N
}.

(** The fields of the [blockchain] object of the node. *)
Record Ledger := mkLedger {
  l_chain : list Blk;
  l_utxoSet : omap Utxo;
  l_mempool : list Tx;
  l_difficulty : N;
  l_miningStats : MiningStats
}.

Inductive effect :=
| SaveChain
| BroadcastNewTx (txData : TxData).

(** [new Transaction(txd.inputs, txd.outputs, txd.isCoinbase)], where a
    missing third argument takes the default [false], followed by
    [tx.timestamp = txd.timestamp; tx.hash = txd.hash;
    tx.signatures = txd.signatures || []].  The digest that the constructor
    computes is overwritten; computing it does not throw. *)
Definition restoreTx (txd : TxData) : Tx :=
  mkTx (d_inputs txd) (d_outputs txd) (default [] (d_signatures txd))
       (default false (d_isCoinbase txd)) (d_timestamp txd) (d_hash txd).

(** [`${inp.txHash}:${inp.outputIndex}`]. *)
Definition inputKey (inp : Input) : string :=
  str (i_txHash inp) +:+ ":" +:+ strN (i_outputIndex inp).

(** [`${tx.hash}:${idx}`]. *)
Definition outputKey (hash : option string) (idx : N) : string :=
  str hash +:+ ":" +:+ Js.string_of_N idx.

Section Verify.
Variable reg : Registry.
Variable utxoSet : omap Utxo.

(** [verifySignature(this.hash, this.signatures[i], pubKey)]: the data
    that is digested is [this.hash + wallet.privateKey]. *)
Definition verifySignature (hash : option string) (signature : option string)
    (publicKey : string) : bool :=
  match registry_get reg publicKey with
  | None => false
  | Some wallet =>
      match signature with
      | Some s => String.eqb (sha256 (str hash +:+ w_privateKey wallet)) s
      | None => false
      end
  end.

(** [wallet.address === utxo.address]. *)
Definition owns (wallet : Wallet) (utxo : Utxo) : bool :=
  match u_address utxo with
  | Some a => String.eqb (w_address wallet) a
  | None => false
  end.

Definition ownerSigned (hash : option string) (signature : option string)
    (utxo : Utxo) : bool :=
  existsb (fun e => owns (snd e) utxo && verifySignature hash signature (fst e)) reg.

Fixpoint verifyInputs (hash : option string) (signatures : list string) (i : nat)
    (inputs : list Input) : bool :=
  match inputs with
  | [] => true
  | inp :: rest =>
      match utxoSet !! inputKey inp with
      | None => false
      | Some utxo =>
          if ownerSigned hash (signatures !! i) utxo
          then verifyInputs hash signatures (S i) rest
          else false
      end
  end.

Definition resolvedAmount (inp : Input) : float :=
  match utxoSet !! inputKey inp with
  | Some utxo => num (u_amount utxo)
  | None => 0%float
  end.

(** [verify]: [this.inputs.length] throws when [inputs] is missing, and
    [this.outputs.reduce], which is reached once every input has passed,
    when [outputs] is. *)
Definition verify (tx : Tx) : outcome bool :=
  if t_isCoinbase tx then Returned true
  else
    match t_inputs tx with
    | None => Thrown TypeError
    | Some inputs =>
        if verifyInputs (t_hash tx) (t_signatures tx) 0 inputs then
          let inputSum :=
            fold_left (fun sum inp => (sum + resolvedAmount inp)%float) inputs 0%float in
          match t_outputs tx with
          | None => Thrown TypeError
          | Some outputs =>
              let outputSum :=
                fold_left (fun sum out => (sum + num (o_amount out))%float)
                          outputs 0%float in
              Returned (Num.ge inputSum outputSum)
          end
        else Returned false
    end.

End Verify.

Definition set_mempool (l : Ledger) (m : list Tx) : Ledger :=
  mkLedger (l_chain l) (l_utxoSet l) m (l_difficulty l) (l_miningStats l).

(** [addToMempool(tx)]; what [verify] throws goes through. *)
Definition addToMempool (reg : Registry) (l : Ledger) (tx : Tx)
    : outcome bool * Ledger :=
  if t_isCoinbase tx then (Returned true, set_mempool l (l_mempool l ++ [tx]))
  else
    match verify reg (l_utxoSet l) tx with
    | Thrown e => (Thrown e, l)
    | Returned false => (Thrown InvalidTransaction, l)
    | Returned true => (Returned true, set_mempool l (l_mempool l ++ [tx]))
    end.

(** [tx.outputs.forEach((out, idx) => this.utxoSet.set(...))], from index
    [idx] on. *)
Fixpoint addOutputs (hash : option string) (idx : N) (outputs : list Output)
    (u : omap Utxo) : omap Utxo :=
  match outputs with
  | [] => u
  | out :: rest =>
      addOutputs hash (idx + 1) rest
        (<[outputKey hash idx := mkUtxo (o_address out) (o_amount out)]> u)
  end.

(** The body of the loop of [_processBlockUTXOs] for one transaction: the
    map it leaves, and what it threw.  [for (const inp of tx.inputs)]
    throws when [inputs] is missing, before anything is deleted;
    [tx.outputs.forEach] throws when [outputs] is missing, after the
    inputs were deleted. *)
Definition processTx (u : omap Utxo) (tx : Tx) : omap Utxo * option exn :=
  let spent :=
    if t_isCoinbase tx then Some u
    else match t_inputs tx with
         | None => None
         | Some inputs => Some (fold_left (fun m inp => delete (inputKey inp) m) inputs u)
         end in
  match spent with
  | None => (u, Some TypeError)
  | Some u1 =>
      match t_outputs tx with
      | None => (u1, Some TypeError)
      | Some outputs => (addOutputs (t_hash tx) 0 outputs u1, None)
      end
  end.

(** The loop over the transactions: it stops at the first throw. *)
Fixpoint processTxs (u : omap Utxo) (txs : list Tx) : omap Utxo * option exn :=
  match txs with
  | [] => (u, None)
  | tx :: rest =>
      match processTx u tx with
      | (u1, None) => processTxs u1 rest
      | (u1, Some e) => (u1, Some e)
      end
  end.

Definition _processBlockUTXOs (u : omap Utxo) (block : Blk) : omap Utxo * option exn :=
  processTxs u (b_transactions block).

(** The block built from the data of a message:
    [blockData.transactions.map(...)] throws when [transactions] is
    missing; [new Block(...)] does not throw (the Merkle root that it
    computes is overwritten), and [miningTime] is
    [blockData.miningTime || 0]. *)
Definition restoreBlock (blockData : BlockData) : outcome Blk :=
  match bd_transactions blockData with
  | None => Thrown TypeError
  | Some txds =>
      Returned (mkBlock (bd_height blockData) (bd_previousHash blockData)
                        (List.map restoreTx txds) (bd_difficulty blockData)
                        (bd_timestamp blockData) (bd_merkleRoot blockData)
                        (bd_nonce blockData) (bd_hash blockData)
                        (default 0%N (bd_miningTime blockData)))
  end.

Definition set_ledger (l : Ledger) (c : list Blk) (u : omap Utxo) : Ledger :=
  mkLedger c u (l_mempool l) (l_difficulty l) (l_miningStats l).

(** [rebuildChainFromData(data)]: the ledger it leaves, and what it threw.
    A block is pushed on the chain before its transactions are applied. *)
Fixpoint rebuildChainFromData (l : Ledger) (data : list BlockData)
    : Ledger * option exn :=
  match data with
  | [] => (l, None)
  | blockData :: rest =>
      match restoreBlock blockData with
      | Thrown e => (l, Some e)
      | Returned block =>
          let chain1 := l_chain l ++ [block] in
          match _processBlockUTXOs (l_utxoSet l) block with
          | (u1, Some e) => (set_ledger l chain1 u1, Some e)
          | (u1, None) => rebuildChainFromData (set_ledger l chain1 u1) rest
          end
      end
  end.

(** [handleChainResponse(chainData)].  The first rebuild, called through
    [.call({ blockchain: tempBlockchain }, chainData)], reads the module's
    [blockchain] and so runs on the node's own ledger; when it throws, the
    two stores that empty the ledger are not reached, and the [catch]
    leaves the ledger as the throw left it. *)
Definition handleChainResponse (l : Ledger) (chainData : list BlockData)
    : Ledger * list effect :=
  if (length chainData <=? length (l_chain l))%nat then (l, [])
  else
    match rebuildChainFromData l chainData with
    | (l1, Some _) => (l1, [])
    | (l1, None) =>
        match rebuildChainFromData (set_ledger l1 [] ∅) chainData with
        | (l2, Some _) => (l2, [])
        | (l2, None) => (l2, [SaveChain])
        end
    end.

(** [t.hash === txData.hash]. *)
Definition sameHash (a b : option string) : bool :=
  match a, b with
  | Some x, Some y => String.eqb x y
  | None, None => true
  | _, _ => false
  end.

(** [handleNewTx(txData)].  Inside the [try], the line that logs the
    transaction comes after [addToMempool] and before [broadcast]: it
    reads [tx.hash.substring] and [tx.outputs.map], and throws when either
    field is missing. *)
Definition handleNewTx (reg : Registry) (l : Ledger) (txData : TxData)
    : Ledger * list effect :=
  if existsb (fun t => sameHash (t_hash t) (d_hash txData)) (l_mempool l)
  then (l, [])
  else
    let tx := restoreTx txData in
    match addToMempool reg l tx with
    | (Thrown _, l1) => (l1, [])
    | (Returned _, l1) =>
        match t_hash tx, t_outputs tx with
        | Some _, Some _ => (l1, [BroadcastNewTx txData])
        | _, _ => (l1, [])
        end
    end.

(** The transactions whose rebuilding makes [_processBlockUTXOs] throw,
    and the chains of a message that rebuild without a throw. *)
Definition throwing (tx : Tx) : bool :=
  match t_outputs tx with
  | None => true
  | Some _ =>
      if t_isCoinbase tx then false
      else match t_inputs tx with None => true | Some _ => false end
  end.

Definition replayable (chainData : list BlockData) : bool :=
  forallb (fun blockData =>
             match bd_transactions blockData with
             | None => false
             | Some txds => forallb (fun txd => negb (throwing (restoreTx txd))) txds
             end)
          chainData.

(** The blocks of a message that has a [transactions] array in every
    block. *)
Definition blocksOf (chainData : list BlockData) : list Blk :=
  List.flat_map (fun blockData =>
                   match restoreBlock blockData with
                   | Returned block => [block]
                   | Thrown _ => []
                   end)
                chainData.

(** The unspent outputs after a list of blocks that apply without a
    throw. *)
Definition applied (u : omap Utxo) (blocks : list Blk) : omap Utxo :=
  fold_left (fun m block => fst (_processBlockUTXOs m block)) blocks u.

(** *** Typed data and typed ledgers, as data and ledgers of this module *)

Definition ofInput (inp : TxInput) : Input :=
  mkInput (Some (in_txHash inp)) (Some (in_outputIndex inp)).

Definition ofOutput (out : TxOutput) : Output :=
  mkOutput (Some (out_address out)) (Some (out_amount out)).

Definition ofUtxo (utxo : UTXO) : Utxo :=
  mkUtxo (Some (utxo_address utxo)) (Some (utxo_amount utxo)).

Definition txData (tx : Transaction) : TxData :=
  mkTxData (Some (List.map ofInput (tx_inputs tx)))
           (Some (List.map ofOutput (tx_outputs tx)))
           (Some (tx_signatures tx)) (Some (tx_isCoinbase tx))
           (Some (tx_timestamp tx)) (Some (tx_hash tx)).

Definition ofTx (tx : Transaction) : Tx :=
  mkTx (Some (List.map ofInput (tx_inputs tx)))
       (Some (List.map ofOutput (tx_outputs tx)))
       (tx_signatures tx) (tx_isCoinbase tx)
       (Some (tx_timestamp tx)) (Some (tx_hash tx)).

Definition blockData (b : Block) : BlockData :=
  mkBlockData (Some (blk_height b)) (Some (blk_previousHash b))
              (Some (List.map txData (blk_transactions b))) (Some (blk_difficulty b))
              (Some (blk_timestamp b)) (Some (blk_merkleRoot b)) (Some (blk_nonce b))
              (Some (blk_hash b)) (Some (blk_miningTime b)).

Definition ofBlock (b : Block) : Blk :=
  mkBlock (Some (blk_height b)) (Some (blk_previousHash b))
          (List.map ofTx (blk_transactions b)) (Some (blk_difficulty b))
          (Some (blk_timestamp b)) (Some (blk_merkleRoot b)) (Some (blk_nonce b))
          (Some (blk_hash b)) (blk_miningTime b).

Definition ofMap (u : omap UTXO) : omap Utxo :=
  OMap (List.map (fun e => (fst e, ofUtxo (snd e))) (entries u)).

Definition ofLedger (bc : Blockchain) : Ledger :=
  mkLedger (List.map ofBlock (chain bc)) (ofMap (utxoSet bc))
           (List.map ofTx (mempool bc)) (difficulty bc) (miningStats bc).

End Raw.

(** What an effect of a typed handler is as an effect of [Raw]. *)
Definition ofEffect (e : effect) : list Raw.effect :=
  match e with
  | SaveChain => [Raw.SaveChain]
  | BroadcastNewTx txd => [Raw.BroadcastNewTx (Raw.txData txd)]
  | _ => []
  end.

(** ** Notions used to state the properties *)

(** The digest of the header of [b] with its nonce set to [n] carries the
    leading zeros that [b]'s difficulty asks for. *)
Definition qualifies (b : Block) (n : N) : bool :=
  Js.startsWith (sha256 (getHeaderString (set_nonce b n))) (target (blk_difficulty b)).

(** A block is sealed when its [hash] is the digest of its header and
    carries the leading zeros that its difficulty asks for. *)
Definition sealed (b : Block) : Prop :=
  blk_hash b = sha256 (getHeaderString b)
  ∧ Js.startsWith (blk_hash b) (target (blk_difficulty b)) = true.

(** The ledger that replaying [blocks] on top of [bc] leaves. *)
Definition replayed (bc : Blockchain) (blocks : list Block) : Blockchain :=
  mkChain (chain bc ++ blocks) (fold_left _processBlockUTXOs blocks (utxoSet bc))
          (mempool bc) (difficulty bc) (miningStats bc).

(** The ledger of a node after [handleNewBlock] took [blockData] in. *)
Definition accepted (bc : Blockchain) (blockData : Block) : Blockchain :=
  match handleNewBlock bc blockData with
  | Returned (bc', _) => bc'
  | Thrown _ => bc
  end.

(** The three reasons for which [verify] rejects a transaction that is not
    a coinbase. *)
Definition unknownInput (utxoSet : omap UTXO) (tx : Transaction) : Prop :=
  ∃ inp, inp ∈ tx_inputs tx ∧ utxoSet !! inputKey inp = None.

(** [signature] is the signature of [hash] by the key of a registered
    wallet that owns [utxo]: what [signData] gives for the private key of
    that wallet. *)
Definition validSignature (reg : Registry) (hash : string)
    (signature : option string) (utxo : UTXO) : Prop :=
  ∃ publicKey wallet,
    (publicKey, wallet) ∈ reg
    ∧ w_address wallet = utxo_address utxo
    ∧ signature = Some (signData hash (w_privateKey wallet)).

Definition invalidSignature (reg : Registry) (utxoSet : omap UTXO)
    (tx : Transaction) : Prop :=
  ∃ i inp utxo,
    tx_inputs tx !! i = Some inp
    ∧ utxoSet !! inputKey inp = Some utxo
    ∧ ¬ validSignature reg (tx_hash tx) (tx_signatures tx !! i) utxo.

(** The amounts that the inputs of [tx] resolve to, and those of its
    outputs. *)
Definition inputAmounts (utxoSet : omap UTXO) (tx : Transaction) : list float :=
  List.map (resolvedAmount utxoSet) (tx_inputs tx).

Definition outputAmounts (tx : Transaction) : list float :=
  List.map out_amount (tx_outputs tx).

(** A total in double arithmetic: the amounts added from the left, each
    sum rounded. *)
Definition roundedTotal (amounts : list float) : float :=
  fold_left PrimFloat.add amounts 0%float.

(** The input total, in double arithmetic, is not at least the output
    total: it is smaller, or one of the two is not a number. *)
Definition roundedShortfall (utxoSet : omap UTXO) (tx : Transaction) : Prop :=
  Num.ge (roundedTotal (inputAmounts utxoSet tx)) (roundedTotal (outputAmounts tx)) = false.

(** The value [m * 2^e] of a finite double, as the pair [(m, e)]. *)
Definition exactValue (x : float) : option (Z * Z) :=
  match Prim2SF x with
  | S754_zero _ => Some (0, 0)%Z
  | S754_finite s m e => Some (if s then Z.neg m else Z.pos m, e)
  | _ => None
  end.

(** Sum and order of such values, without rounding. *)
Definition exactAdd (a b : Z * Z) : Z * Z :=
  let e := Z.min (snd a) (snd b) in
  (fst a * 2 ^ (snd a - e) + fst b * 2 ^ (snd b - e), e)%Z.

Definition exactLess (a b : Z * Z) : Prop :=
  let e := Z.min (snd a) (snd b) in
  (fst a * 2 ^ (snd a - e) < fst b * 2 ^ (snd b - e))%Z.

Definition exactTotal (amounts : list float) : option (Z * Z) :=
  fold_left (fun total x =>
               match total, exactValue x with
               | Some t, Some v => Some (exactAdd t v)
               | _, _ => None
               end)
            amounts (Some (0, 0)%Z).

(** The total resolved input amount is less than the total output amount,
    the two totals taken as the numbers they are. *)
Definition insufficientFunds (utxoSet : omap UTXO) (tx : Transaction) : Prop :=
  ∃ i o, exactTotal (inputAmounts utxoSet tx) = Some i
         ∧ exactTotal (outputAmounts tx) = Some o
         ∧ exactLess i o.

(** The states of a node that was initialized and then only admitted
    transactions and mined blocks. *)
Inductive reachable (reg : Registry) : Blockchain → Prop :=
| reach_initialize fuel clock d address genesis bc :
    initialize fuel clock (newBlockchain d) address = Some (genesis, bc) →
    reachable reg bc
| reach_addToMempool bc tx result bc' :
    reachable reg bc →
    addToMempool reg bc tx = (result, bc') →
    reachable reg bc'
| reach_mineBlock bc fuel clock address block bc' :
    reachable reg bc →
    mineBlock fuel clock bc address = Some (Returned (block, bc')) →
    reachable reg bc'.

(** The confirmed transactions that are not coinbases, in chain order. *)
Definition confirmedSpending (bc : Blockchain) : list Transaction :=
  List.filter (fun tx => negb (tx_isCoinbase tx))
              (List.flat_map blk_transactions (chain bc)).

(** Two different confirmed transactions consume the same key. *)
Definition doubleSpend (bc : Blockchain) : Prop :=
  ∃ i j tx1 tx2 inp1 inp2,
    i ≠ j
    ∧ confirmedSpending bc !! i = Some tx1
    ∧ confirmedSpending bc !! j = Some tx2
    ∧ inp1 ∈ tx_inputs tx1
    ∧ inp2 ∈ tx_inputs tx2
    ∧ in_txHash inp1 = in_txHash inp2
    ∧ in_outputIndex inp1 = in_outputIndex inp2.

(** The block [b] with another list of transactions in its place: what is
    left of a block when a stored transaction is altered in memory. *)
Definition set_transactions (b : Block) (txs : list Transaction) : Block :=
  mkBlock (blk_height b) (blk_previousHash b) txs (blk_difficulty b)
          (blk_timestamp b) (blk_merkleRoot b) (blk_nonce b) (blk_hash b)
          (blk_miningTime b).

Definition set_chain (bc : Blockchain) (c : list Block) : Blockchain :=
  mkChain c (utxoSet bc) (mempool bc) (difficulty bc) (miningStats bc).

Definition set_amount (o : TxOutput) (amount : float) : TxOutput :=
  mkOutput (out_address o) amount.

(** The two components of what [mineBlock] returned, with a stand-in for
    a call that did not return. *)
Definition minedBlock (r : option (outcome (Block * Blockchain))) (otherwise : Block)
    : Block :=
  match r with Some (Returned (b, _)) => b | _ => otherwise end.

Definition minedLedger (r : option (outcome (Block * Blockchain)))
    (otherwise : Blockchain) : Blockchain :=
  match r with Some (Returned (_, bc)) => bc | _ => otherwise end.

(** ** A small network used in the examples *)

Module Demo.

Definition alicePrivateKey : string := "alice-private-key".
Definition alicePublicKey : string := Eval vm_compute in
  derivePublicKey alicePrivateKey.
Definition alice : string := Eval vm_compute in deriveAddress alicePublicKey.
Definition bob : string := Eval vm_compute in
  deriveAddress (derivePublicKey "bob-private-key").
Definition carol : string := Eval vm_compute in
  deriveAddress (derivePublicKey "carol-private-key").

Definition registry : Registry := [(alicePublicKey, mkWallet alicePrivateKey alice)].

(** A node of difficulty 1, initialized with Alice as the founder. *)
Definition started : option (Block * Blockchain) := Eval vm_compute in
  initialize 4 (mkClock 1000 1021 3) (newBlockchain 1) alice.

Definition genesis : Block := Eval vm_compute in
  from_option fst (newBlock 0 0 zeros64 [] 1) started.

Definition node0 : Blockchain := Eval vm_compute in
  from_option snd (newBlockchain 1) started.

(** The output that the genesis block gave to Alice. *)
Definition aliceCoin : TxInput := Eval vm_compute in
  mkInput (List.hd "" (List.map tx_hash (blk_transactions genesis))) 0.

(** A payment by Alice out of that coin, as her wallet builds and signs
    it: the payment, and the change back to her. *)
Definition pay (now : N) (recipient : string) (amount : float) : Transaction :=
  sign (newTransaction now [aliceCoin]
          [mkOutput recipient amount; mkOutput alice (round2 (5000 - amount))] false)
       alicePrivateKey.

Definition toBob : Transaction := Eval vm_compute in pay 2000 bob 10.
Definition toCarol : Transaction := Eval vm_compute in pay 2001 carol 20.

Definition node1 : Blockchain := Eval vm_compute in
  snd (addToMempool registry node0 toBob).
Definition node2 : Blockchain := Eval vm_compute in
  snd (addToMempool registry node1 toCarol).

Definition minedTwice : option (outcome (Block * Blockchain)) := Eval vm_compute in
  mineBlock 4 (mkClock 3000 3029 4) node2 alice.

Definition node3 : Blockchain := Eval vm_compute in minedLedger minedTwice node2.

(** The block that carries both payments. *)
Definition block1 : Block := Eval vm_compute in minedBlock minedTwice genesis.

(** A stored transaction altered in memory: what it pays to Bob is
    changed from 10 to 90, the other fields are left as they are. *)
Definition overpaid (tx : Transaction) : Transaction :=
  mkTx (tx_inputs tx)
       (List.map (fun o => if String.eqb (out_address o) bob then set_amount o 90 else o)
                 (tx_outputs tx))
       (tx_signatures tx) (tx_isCoinbase tx) (tx_timestamp tx) (tx_hash tx).

Definition tamperedNode : Blockchain := Eval vm_compute in
  set_chain node3
    [genesis; set_transactions block1 (List.map overpaid (blk_transactions block1))].

(** A transaction that claims to be a coinbase and pays Bob out of
    nothing. *)
Definition freeMoney : Transaction :=
  mkTx [] [mkOutput bob 1000000] [] true 5000 "free-money".

(** Another one, which carries the hash of Alice's payment to Bob in its
    [hash] field. *)
Definition impostor : Transaction :=
  mkTx [] [mkOutput carol 1000000] [] true 5001 (tx_hash toBob).

(** A transaction that spends an output that was never created. *)
Definition fromNowhere : Transaction :=
  mkTx [mkInput "no-such-transaction" 0] [mkOutput bob 1] [] false 5 "from-nowhere".

(** The data of a transaction that claims to be a coinbase and has no
    [outputs]; a block that carries it, on top of [genesis]; and a chain
    made of the genesis block and that block. *)
Definition holedTx : Raw.TxData :=
  Raw.mkTxData (Some []) None (Some []) (Some true) (Some 6000%N) (Some "holed-tx").

Definition holedChain : list Raw.BlockData := Eval vm_compute in
  [ Raw.blockData genesis;
    Raw.mkBlockData (Some 1%N) (Some (blk_hash genesis)) (Some [holedTx]) (Some 0%N)
                    (Some 6001%N) (Some "holed-root") (Some 1%N) (Some "holed-hash")
                    (Some 0%N) ].

(** Unspent outputs in which Alice owns one output of [2^53], and a
    payment of hers that spends it: [2^53] to Bob and 1 to Carol. *)
Definition bigCoin : TxInput := mkInput (sha256 "a-large-allocation") 0.

Definition bigLedger : omap UTXO := Eval vm_compute in
  <[inputKey bigCoin := mkUTXO alice 9007199254740992]> ∅.

Definition oneTooMany : Transaction := Eval vm_compute in
  sign (newTransaction 7000 [bigCoin]
          [mkOutput bob 9007199254740992; mkOutput carol 1] false)
       alicePrivateKey.

(** A first block that gives Bob [2^60], and the ledger of a node that is
    started on a chain file that holds this block alone. *)
Definition richGenesis : Block := Eval vm_compute in
  newBlock 900 0 zeros64 [createCoinbase 899 bob 1152921504606846976 0] 1.

Definition richNode : Blockchain := Eval vm_compute in
  rebuildChainFromData (newBlockchain 1) [richGenesis].

(** A block whose nonce counter has reached [2^53]. *)
Definition stuckBlock : Block := Eval vm_compute in
  set_nonce (newBlock 1001 1 zeros64 [] 1) (2 ^ 53).

(** A block that builds on [genesis] and declares difficulty 0, with a
    [hash] field that is not the digest of its header. *)
Definition forgedBlock : Block := Eval vm_compute in
  mkBlock 1 (blk_hash genesis)
          [mkTx [mkInput zeros64 1] [mkOutput bob 1000000] [] true 4000 "forged-tx"]
          0 4001 "forged-root" 7 "forged-hash" 0.

(** The same block with the true digest of its header in [hash], its
    [merkleRoot] still not that of its transactions. *)
Definition forgedRootBlock : Block := Eval vm_compute in
  set_hash forgedBlock (sha256 (getHeaderString forgedBlock)).

End Demo.

(** * Further notions, and the rest of the node *)

(** ** Equality of the values of the ledger is decidable *)

#[global] Instance omap_eq_dec `{EqDecision V} : EqDecision (omap V).
Proof. solve_decision. Defined.
#[global] Instance TxInput_eq_dec : EqDecision TxInput.
Proof. solve_decision. Defined.
#[global] Instance TxOutput_eq_dec : EqDecision TxOutput.
Proof. solve_decision. Defined.
#[global] Instance UTXO_eq_dec : EqDecision UTXO.
Proof. solve_decision. Defined.
#[global] Instance Transaction_eq_dec : EqDecision Transaction.
Proof. solve_decision. Defined.
#[global] Instance Block_eq_dec : EqDecision Block.
Proof. solve_decision. Defined.
#[global] Instance MiningStats_eq_dec : EqDecision MiningStats.
Proof. solve_decision. Defined.
#[global] Instance Blockchain_eq_dec : EqDecision Blockchain.
Proof. solve_decision. Defined.
#[global] Instance exn_eq_dec : EqDecision exn.
Proof. solve_decision. Defined.
#[global] Instance outcome_eq_dec `{EqDecision A} : EqDecision (outcome A).
Proof. solve_decision. Defined.
#[global] Instance effect_eq_dec : EqDecision effect.
Proof. solve_decision. Defined.
#[global] Instance validation_eq_dec : EqDecision validation.
Proof. solve_decision. Defined.
#[global] Instance Raw_Input_eq_dec : EqDecision Raw.Input.
Proof. solve_decision. Defined.
#[global] Instance Raw_Output_eq_dec : EqDecision Raw.Output.
Proof. solve_decision. Defined.
#[global] Instance Raw_Utxo_eq_dec : EqDecision Raw.Utxo.
Proof. solve_decision. Defined.
#[global] Instance Raw_TxData_eq_dec : EqDecision Raw.TxData.
Proof. solve_decision. Defined.
#[global] Instance Raw_Tx_eq_dec : EqDecision Raw.Tx.
Proof. solve_decision. Defined.
#[global] Instance Raw_BlockData_eq_dec : EqDecision Raw.BlockData.
Proof. solve_decision. Defined.
#[global] Instance Raw_Blk_eq_dec : EqDecision Raw.Blk.
Proof. solve_decision. Defined.
#[global] Instance Raw_Ledger_eq_dec : EqDecision Raw.Ledger.
Proof. solve_decision. Defined.
#[global] Instance Raw_effect_eq_dec : EqDecision Raw.effect.
Proof. solve_decision. Defined.

(** ** Notions used to state further properties *)

(** What [mine] leaves alone in a block. *)
Definition sameBody (b b' : Block) : Prop :=
  blk_height b' = blk_height b
  ∧ blk_previousHash b' = blk_previousHash b
  ∧ blk_transactions b' = blk_transactions b
  ∧ blk_difficulty b' = blk_difficulty b
  ∧ blk_timestamp b' = blk_timestamp b
  ∧ blk_merkleRoot b' = blk_merkleRoot b.

(** The unspent outputs are what replaying the chain from nothing gives. *)
Definition ledgerConsistent (bc : Blockchain) : Prop :=
  utxoSet bc = fold_left _processBlockUTXOs (chain bc) ∅.

(** The reward that the coinbase of the block at index [i] carries. *)
Definition rewardAt (i : nat) : float :=
  match i with O => (MINING_REWARD * 100)%float | S _ => MINING_REWARD end.

(** The block at index [i] of a chain that a node of difficulty [d] built
    by itself: its height is its index, it is sealed at the node's
    difficulty, its Merkle root is that of its transactions, and its first
    transaction is the coinbase for that height. *)
Definition builtAt (d : N) (i : nat) (b : Block) : Prop :=
  blk_height b = N.of_nat i
  ∧ blk_difficulty b = d
  ∧ sealed b
  ∧ blk_merkleRoot b = computeRoot (List.map tx_hash (blk_transactions b))
  ∧ ∃ now address rest,
      blk_transactions b = createCoinbase now address (rewardAt i) (N.of_nat i) :: rest.

(** The mempool that [handleNewBlock] leaves: what is not confirmed by
    the block, by hash. *)
Definition unconfirmed (block : Block) (pool : list Transaction) : list Transaction :=
  List.filter
    (fun t => negb (existsb (String.eqb (tx_hash t)) (List.map tx_hash (blk_transactions block))))
    pool.

(** ** The node: wire forms, connections and the message dispatcher *)

(** The wire form of a transaction and of a block, as [serializeBlock]
    (and the body of the REST route [/tx]) write them: an object with the
    same fields. *)
Definition serializeTx (tx : Transaction) : Transaction :=
  mkTx (tx_inputs tx) (tx_outputs tx) (tx_signatures tx) (tx_isCoinbase tx)
       (tx_timestamp tx) (tx_hash tx).

Definition serializeBlock (block : Block) : Block :=
  mkBlock (blk_height block) (blk_previousHash block)
          (List.map serializeTx (blk_transactions block)) (blk_difficulty block)
          (blk_timestamp block) (blk_merkleRoot block) (blk_nonce block)
          (blk_hash block) (blk_miningTime block).

(** The body of a message; [msg.data?.chainLength] of a handshake is
    [None] when the field is missing. *)
Inductive message :=
| HANDSHAKE (chainLength : option N)
| PEER_LIST (addresses : list string)
| NEW_BLOCK (blockData : Block)
| NEW_TX (txData : Transaction)
| REQUEST_CHAIN
| CHAIN_RESPONSE (chainData : list Block)
| PING
| PONG.

(** [{type, data, sender}]. *)
Record envelope := mkEnvelope { msg_body : message; msg_sender : string }.

(** A value of the [peers] map; the two fields that only a handshake
    writes are [None] and [false] in an entry written at connection
    time. *)
Record PeerInfo := mkPeer {
  peer_address : string;
  peer_lastSeen : N;
  peer_chainLength : option N;
  peer_handshakeDone : bool
}.

(** The ledger and the [peers] map, keyed by the socket. *)
Record Node := mkNode { ledger : Blockchain; peers : gmap nat PeerInfo }.

(** What a handler asks of the outside: [ws.send], [broadcast] (to every
    open socket but [excludeWs]), [new WebSocket(address)], [saveChain]. *)
Inductive action :=
| Send (ws : nat) (m : message)
| Broadcast (m : message) (excludeWs : option nat)
| Connect (address : string)
| Save.

Definition isPeerConnected (peers : gmap nat PeerInfo) (address : string) : bool :=
  map_fold (fun (_ : nat) info found => found || String.eqb (peer_address info) address)
           false peers.

(** [connectToPeer(address)], up to the creation of the socket. *)
Definition connectToPeer (node : Node) (address : string) : list action :=
  if isPeerConnected (peers node) address then [] else [Connect address].

(** The [open] handler of a socket that [connectToPeer] created. *)
Definition onOpen (now : N) (node : Node) (ws : nat) (address : string)
    : Node * list action :=
  (mkNode (ledger node) (<[ws := mkPeer address now None false]> (peers node)),
   [Send ws (HANDSHAKE (Some (N.of_nat (length (chain (ledger node))))))]).

(** The [connection] handler of the server. *)
Definition onConnection (now : N) (node : Node) (ws : nat) : Node :=
  mkNode (ledger node) (<[ws := mkPeer "incoming" now None false]> (peers node)).

(** The [close] handler. *)
Definition onClose (node : Node) (ws : nat) : Node :=
  mkNode (ledger node) (delete ws (peers node)).

(** What an [effect] of the three ledger handlers is as an [action] of the
    node that received the message on [ws]. *)
Definition actionOf (ws : nat) (e : effect) : action :=
  match e with
  | SendRequestChain => Send ws REQUEST_CHAIN
  | SaveChain => Save
  | BroadcastNewBlock blockData => Broadcast (NEW_BLOCK blockData) (Some ws)
  | BroadcastNewTx txData => Broadcast (NEW_TX txData) None
  end.

(** [handleMessage(ws, raw)] on a message that parsed; [self] is the
    node's own address and [now] the time. *)
Definition handleMessage (self : string) (now : N) (reg : Registry)
    (node : Node) (ws : nat) (msg : envelope) : outcome (Node * list action) :=
  match msg_body msg with
  | HANDSHAKE chainLength =>
      let alreadyHandshook :=
        match peers node !! ws with
        | Some existingPeer => peer_handshakeDone existingPeer
        | None => false
        end in
      let here := N.of_nat (length (chain (ledger node))) in
      let info := mkPeer (msg_sender msg) now (Some (default 0%N chainLength)) true in
      Returned
        (mkNode (ledger node) (<[ws := info]> (peers node)),
         (if alreadyHandshook then [] else [Send ws (HANDSHAKE (Some here))])
         ++ match chainLength with
            | Some n => if (here <? n)%N then [Send ws REQUEST_CHAIN] else []
            | None => []
            end)
  | NEW_BLOCK blockData =>
      match handleNewBlock (ledger node) blockData with
      | Returned (bc, effects) =>
          Returned (mkNode bc (peers node), List.map (actionOf ws) effects)
      | Thrown e => Thrown e
      end
  | NEW_TX txData =>
      let '(bc, effects) := handleNewTx reg (ledger node) txData in
      Returned (mkNode bc (peers node), List.map (actionOf ws) effects)
  | REQUEST_CHAIN =>
      Returned (node, [Send ws (CHAIN_RESPONSE (List.map serializeBlock (chain (ledger node))))])
  | CHAIN_RESPONSE chainData =>
      let '(bc, effects) := handleChainResponse (ledger node) chainData in
      Returned (mkNode bc (peers node), List.map (actionOf ws) effects)
  | PEER_LIST addresses =>
      Returned
        (node,
         List.flat_map
           (fun addr => if negb (String.eqb addr self) && negb (isPeerConnected (peers node) addr)
                        then connectToPeer node addr else [])
           addresses)
  | PING => Returned (node, [Send ws PONG])
  | PONG => Returned (node, [])
  end.

(** [mineOneBlock()]: mine to the node's wallet, save, tell every peer. *)
Definition mineOneBlock (fuel : nat) (clock : Clock) (node : Node) (address : string)
    : option (outcome (Block * Node * list action)) :=
  match mineBlock fuel clock (ledger node) address with
  | None => None
  | Some (Thrown e) => Some (Thrown e)
  | Some (Returned (block, bc)) =>
      Some (Returned (block, mkNode bc (peers node),
                      [Save; Broadcast (NEW_BLOCK (serializeBlock block)) None]))
  end.

(** Equality of the values of the node is decidable. *)

#[global] Instance message_eq_dec : EqDecision message.
Proof. solve_decision. Defined.
#[global] Instance PeerInfo_eq_dec : EqDecision PeerInfo.
Proof. solve_decision. Defined.
#[global] Instance Node_eq_dec : EqDecision Node.
Proof. solve_decision. Defined.
#[global] Instance action_eq_dec : EqDecision action.
Proof. solve_decision. Defined.

(** The node after it handled any number of messages that arrived on any
    of its sockets. *)
Inductive handles (self : string) (reg : Registry) : Node → Node → Prop :=
| handles_none node : handles self reg node node
| handles_more node now ws msg node' actions node'' :
    handleMessage self now reg node ws msg = Returned (node', actions) →
    handles self reg node' node'' →
    handles self reg node node''.

(** The peer on socket [ws] has been answered a handshake. *)
Definition handshook (node : Node) (ws : nat) : Prop :=
  ∃ info, peers node !! ws = Some info ∧ peer_handshakeDone info = true.

(** The REQUEST_CHAIN that follows a handshake which announced [theirs]
    blocks to a node that holds [ours]. *)
Definition requestIfBehind (ws : nat) (ours theirs : N) : list action :=
  if (ours <? theirs)%N then [Send ws REQUEST_CHAIN] else [].

(** * Properties *)

(** A closed, decidable statement, settled by evaluating its decision
    procedure. *)
Ltac by_decision := apply (bool_decide_unpack _); vm_compute; exact I.

(** ** The digest and the serializations against known values *)

(** The two standard test vectors. *)
Example sha256_empty :
  sha256 "" = "e3b0c44298fc1c149afbf4c8996fb92427ae41e4649b934ca495991b7852b855".
Proof. vm_compute. reflexivity. Qed.

Example sha256_abc :
  sha256 "abc" = "ba7816bf8f01cfea414140de5dae2223b00361a396177a9cb410ff61f20015ad".
Proof. vm_compute. reflexivity. Qed.

(** The hash of the coinbase of the repository's canonical genesis block,
    and the hash of that block. *)
Example genesis_tx_hash :
  computeHash [mkInput zeros64 0] [mkOutput "e15c65c6268f49044d423f71cfab78c271c6543a" 5000]
              1770969189273 true
  = "bf6e856e15f62523cc87336de5c8d62518f4a69d844e6d628d102fca949c1f78".
Proof. vm_compute. reflexivity. Qed.

Example genesis_header_digest :
  sha256 (getHeaderString
    (mkBlock 0 zeros64 [] 4 1770969189273
       "bf6e856e15f62523cc87336de5c8d62518f4a69d844e6d628d102fca949c1f78"
       168039 "" 771))
  = "0000ad97e4a235d6bd115f460eba4ce1422b202a66a285aec945ee46de78d59a".
Proof. vm_compute. reflexivity. Qed.

(** ** Facts about the primitives *)

Lemma length_repeat c n : String.length (Js.repeat c n) = n.
Proof. induction n as [|n IH]; simpl; [reflexivity | now rewrite IH]. Qed.

Lemma append_cons c (s t : string) : String c s +:+ t = String c (s +:+ t).
Proof. reflexivity. Qed.

Lemma length_append (s t : string) :
  String.length (s +:+ t) = String.length s + String.length t.
Proof.
  induction s as [|c s IH]; [reflexivity |].
  rewrite append_cons. simpl. now rewrite IH.
Qed.

Lemma padStart_length n c s : n <= String.length (Js.padStart n c s).
Proof.
  unfold Js.padStart. rewrite length_append, length_repeat. lia.
Qed.

Lemma hex8_nonempty v : Sha256.hex8 v ≠ "".
Proof.
  unfold Sha256.hex8. intros E.
  pose proof (padStart_length 8 "0"%char (Js.toString16 (Z.to_N (Sha256.u32 v)))) as H.
  rewrite E in H. simpl in H. lia.
Qed.

Lemma append_nonempty (s t : string) : s ≠ "" → s +:+ t ≠ "".
Proof. destruct s; [congruence | discriminate]. Qed.

Lemma sha256_nonempty m : sha256 m ≠ "".
Proof.
  unfold sha256, Sha256.sha256.
  destruct (Sha256.blocks _ _ _). apply append_nonempty, hex8_nonempty.
Qed.

Lemma or_else_Some (a b : string) : a ≠ "" → Js.or_else (Some a) b = a.
Proof. destruct a; [congruence | reflexivity]. Qed.

(** ** MerkleTree: proofs and roots agree *)

Lemma pair_ind {A} (P : list A → Prop) :
  P [] → (∀ a, P [a]) → (∀ a b l, P l → P (a :: b :: l)) → ∀ l, P l.
Proof.
  intros H0 H1 H2 l.
  assert (P l ∧ ∀ a, P (a :: l)) as [H _]; [| exact H].
  induction l as [|b l [IH1 IH2]]; split; auto.
Qed.

Lemma proofPass_next idx i l : fst (proofPass idx i l) = nextLevel l.
Proof.
  revert i. induction l as [|a|a b l IH] using pair_ind; intros i; try reflexivity.
  simpl. specialize (IH (i + 2)). destruct (proofPass idx (i + 2) l) as [next pushed].
  simpl in *. now rewrite IH.
Qed.

Lemma nextLevel_length l : length (nextLevel l) = Nat.div2 (S (length l)).
Proof.
  induction l as [|a|a b l IH] using pair_ind; try reflexivity.
  simpl nextLevel. simpl length. rewrite IH. reflexivity.
Qed.

Lemma nextLevel_shorter l : 1 < length l → length (nextLevel l) < length l.
Proof.
  intros H. rewrite nextLevel_length.
  rewrite Nat.div2_div. apply Nat.Div0.div_lt_upper_bound. lia.
Qed.

Lemma nextLevel_nonempty l : Forall (λ h, h ≠ "") (nextLevel l).
Proof.
  induction l as [|a|a b l IH] using pair_ind; simpl; repeat constructor;
    auto using sha256_nonempty.
Qed.

Lemma pushStep_skip idx i lft rgt : idx < i ∨ i + 2 ≤ idx → Nat.even i = true →
  pushStep idx i lft rgt = [].
Proof.
  intros H Hi. unfold pushStep.
  destruct (Nat.eqb_spec i (idx - idx mod 2)) as [E|]; [| reflexivity].
  exfalso. apply Nat.even_spec in Hi as [k ->].
  pose proof (Nat.mod_upper_bound idx 2). pose proof (Nat.div_mod_eq idx 2). lia.
Qed.

#[local] Arguments Js.or_else : simpl never.

Lemma pushStep_even idx lft rgt : Nat.even idx = true →
  pushStep idx idx lft rgt = [mkStep rgt "right"].
Proof.
  intros Hi. unfold pushStep. apply Nat.even_spec in Hi as [k ->].
  replace (2 * k mod 2) with 0 by (rewrite Nat.mul_comm; now rewrite Nat.Div0.mod_mul).
  rewrite Nat.sub_0_r, Nat.eqb_refl. reflexivity.
Qed.

Lemma pushStep_odd i lft rgt : Nat.even i = true →
  pushStep (S i) i lft rgt = [mkStep lft "left"].
Proof.
  intros Hi. unfold pushStep. apply Nat.even_spec in Hi as [k ->].
  replace (S (2 * k) mod 2) with 1.
  - replace (S (2 * k) - 1) with (2 * k) by lia. rewrite Nat.eqb_refl. reflexivity.
  - replace (S (2 * k)) with (1 + k * 2) by lia. now rewrite Nat.Div0.mod_add.
Qed.

Lemma proofPass_skip idx l : ∀ i, idx < i → Nat.even i = true →
  snd (proofPass idx i l) = [].
Proof.
  induction l as [|a|a b l IH] using pair_ind; intros i Hlt Hi; simpl.
  - reflexivity.
  - apply pushStep_skip; auto.
  - specialize (IH (i + 2)). destruct (proofPass idx (i + 2) l) as [next pushed].
    simpl in *. rewrite pushStep_skip by auto. apply IH; [lia |].
    rewrite Nat.even_add, Hi. reflexivity.
Qed.

(** The step pushed for [idx] at one level takes the entry at [idx] to the
    entry at [idx / 2] of the next level. *)
Lemma proofPass_step l : ∀ i idx leaf,
  Nat.even i = true → i ≤ idx →
  Forall (λ h, h ≠ "") l →
  l !! (idx - i) = Some leaf →
  ∃ step, snd (proofPass idx i l) = [step]
          ∧ nextLevel l !! ((idx - i) / 2) = Some (applyStep leaf step).
Proof.
  induction l as [|a|a b l IH] using pair_ind; intros i idx leaf Hi Hle Hne Hl.
  - discriminate.
  - destruct (idx - i) as [|n] eqn:E; [| discriminate].
    assert (idx = i) as -> by lia. injection Hl as ->.
    exists (mkStep leaf "right"). simpl. rewrite pushStep_even by auto. split; reflexivity.
  - cbn [proofPass nextLevel]. pose proof (proofPass_skip idx l (i + 2)) as Hskip.
    specialize (IH (i + 2) idx leaf).
    destruct (proofPass idx (i + 2) l) as [next pushed]. cbn [snd] in *.
    assert (Hi2 : Nat.even (i + 2) = true) by (rewrite Nat.even_add, Hi; reflexivity).
    inversion Hne as [|? ? Ha Hne']; subst. inversion Hne' as [|? ? Hb Hne'']; subst.
    rewrite (or_else_Some b a Hb).
    destruct (idx - i) as [|[|n]] eqn:E.
    + assert (idx = i) as -> by lia. injection Hl as ->.
      rewrite pushStep_even, Hskip by (auto; lia).
      exists (mkStep b "right"). split; reflexivity.
    + assert (idx = S i) as -> by lia. injection Hl as ->.
      rewrite pushStep_odd, Hskip by (auto; lia).
      exists (mkStep a "left"). split; reflexivity.
    + rewrite pushStep_skip by (auto; lia).
      replace (idx - (i + 2)) with n in IH by lia.
      destruct (IH Hi2 ltac:(lia) Hne'' Hl) as (step & Hs & Hn).
      exists step. split; [exact Hs |].
      replace (S (S n)) with (n + 1 * 2) by lia.
      rewrite Nat.div_add by lia. replace (n / 2 + 1) with (S (n / 2)) by lia.
      exact Hn.
Qed.

(** The leaf count is fuel enough: the loop leaves by its own test, and
    leaves a level whose first entry exists. *)
Lemma rootLoop_exit fuel : ∀ level, length level ≤ S fuel →
  length (rootLoop fuel level) ≤ 1.
Proof.
  induction fuel as [|f IH]; intros level H; simpl; [lia |].
  destruct (Nat.ltb_spec 1 (length level)) as [Hlt|]; [| lia].
  apply IH. pose proof (nextLevel_shorter level Hlt). lia.
Qed.

Lemma rootLoop_nonempty fuel : ∀ level, level ≠ [] → rootLoop fuel level ≠ [].
Proof.
  induction fuel as [|f IH]; intros level H; simpl; [exact H |].
  destruct (Nat.ltb_spec 1 (length level)) as [Hlt|]; [| exact H].
  apply IH. intros E. pose proof (nextLevel_length level) as HL.
  rewrite E in HL. destruct level as [|a [|b l]]; simpl in *; lia.
Qed.

(** The two loops in step: following the proof from the entry at [idx]
    ends at the head of the last level. *)
Lemma proofLoop_rootLoop fuel : ∀ level idx leaf,
  length level ≤ S fuel →
  Forall (λ h, h ≠ "") level →
  level !! idx = Some leaf →
  List.hd "" (rootLoop fuel level) = fold_left applyStep (proofLoop fuel level idx) leaf.
Proof.
  induction fuel as [|f IH]; intros level idx leaf Hlen Hne Hl.
  - simpl. destruct level as [|a [|b l]]; simpl in *; try lia; [discriminate |].
    destruct idx; [| discriminate]. now injection Hl as ->.
  - simpl. destruct (Nat.ltb_spec 1 (length level)) as [Hlt|Hge].
    + pose proof (proofPass_next idx 0 level) as Hnext.
      destruct (proofPass_step level 0 idx leaf eq_refl ltac:(lia) Hne
                  ltac:(now rewrite Nat.sub_0_r)) as (step & Hs & Hn).
      destruct (proofPass idx 0 level) as [next pushed]. simpl in *. subst next pushed.
      rewrite Nat.sub_0_r in Hn. simpl.
      apply IH; [| apply nextLevel_nonempty | exact Hn].
      pose proof (nextLevel_shorter level Hlt). lia.
    + destruct level as [|a [|b l]]; simpl in *; try lia; [discriminate |].
      destruct idx; [| discriminate]. now injection Hl as ->.
Qed.

(** C2.  Merkle proof round trip: for a list of leaf hashes, none of them
    the empty string (a digest never is), and an index [i] inside the
    list, [verifyProof(leaves[i], getProof(leaves, i), computeRoot(leaves))]
    is [true]. *)
Theorem merkle_roundtrip (leaves : list string) (i : nat) (leaf : string) :
  Forall (λ h, h ≠ "") leaves →
  leaves !! i = Some leaf →
  verifyProof leaf (getProof leaves i) (computeRoot leaves) = true.
Proof.
  intros Hne Hl. unfold verifyProof, getProof, computeRoot.
  apply String.eqb_eq.
  destruct leaves as [|a [|b l]]; [discriminate | |].
  - destruct i; [| discriminate]. now injection Hl as ->.
  - change (length (a :: b :: l) =? 0) with false.
    change (length (a :: b :: l) <=? 1) with false. cbv iota.
    symmetry. apply proofLoop_rootLoop; auto.
Qed.

(** C2, an instance: three leaves, the odd one out at index 2. *)
Lemma merkle_roundtrip_witness :
  verifyProof (sha256 "tx-c")
    (getProof [sha256 "tx-a"; sha256 "tx-b"; sha256 "tx-c"] 2)
    (computeRoot [sha256 "tx-a"; sha256 "tx-b"; sha256 "tx-c"]) = true.
Proof.
  apply (merkle_roundtrip [sha256 "tx-a"; sha256 "tx-b"; sha256 "tx-c"] 2 (sha256 "tx-c")).
  - repeat constructor; apply sha256_nonempty.
  - reflexivity.
Defined.

(** Why [merkle_roundtrip] asks for leaves that are not the empty string:
    [level[i + 1] || level[i]] takes an empty right-hand entry for a
    missing one, while the proof step for it hashes the entry itself. *)
Remark empty_leaf_breaks_roundtrip :
  verifyProof "" (getProof ["a"; ""] 1) (computeRoot ["a"; ""]) = false.
Proof. vm_compute. reflexivity. Qed.

(** ** Block.mine *)

Lemma incr_below n : (n < 2 ^ 53)%N → Js.incr n = (n + 1)%N.
Proof. intros H. unfold Js.incr. now apply N.ltb_lt in H as ->. Qed.

Lemma mineStep_hash b : blk_hash (mineStep b) = sha256 (getHeaderString (mineStep b)).
Proof. reflexivity. Qed.

Lemma mineStep_qualifies b n :
  qualifies (mineStep b) n = qualifies b n.
Proof. reflexivity. Qed.

Lemma mineStep_test b : (blk_nonce b < 2 ^ 53)%N →
  Js.startsWith (blk_hash (mineStep b)) (target (blk_difficulty (mineStep b)))
  = qualifies b (blk_nonce b + 1).
Proof.
  intros H. unfold qualifies, mineStep. simpl. rewrite (incr_below _ H). reflexivity.
Qed.

(** Where the comparison with the target succeeds, the target is no longer
    than the hash it is compared with: ['0'.repeat(difficulty)] was within
    the length of a string that is there. *)
Lemma prefix_repeat_length (c : ascii) (n : nat) : ∀ (s : string),
  String.prefix (Js.repeat c n) s = true → n ≤ String.length s.
Proof.
  induction n as [|k IH]; intros s H; [lia |].
  destruct s as [|c' s]; cbn in H; [discriminate |].
  destruct (ascii_dec c c'); [| discriminate].
  apply IH in H. cbn. lia.
Qed.

Lemma startsWith_target_length (hash : string) (difficulty : N) :
  Js.startsWith hash (target difficulty) = true →
  N.to_nat difficulty ≤ String.length hash.
Proof. apply prefix_repeat_length. Qed.

Lemma mineLoop_S f b a :
  mineLoop (S f) b a =
  if Js.startsWith (blk_hash (mineStep b)) (target (blk_difficulty (mineStep b)))
  then Some (mineStep b, (a + 1)%N)
  else mineLoop f (mineStep b) (a + 1)%N.
Proof. reflexivity. Qed.

Lemma mineLoop_sealed fuel : ∀ b attempts b' attempts',
  mineLoop fuel b attempts = Some (b', attempts') → sealed b'.
Proof.
  induction fuel as [|f IH]; intros b a b' a' H; [discriminate |].
  rewrite mineLoop_S in H.
  destruct (Js.startsWith (blk_hash (mineStep b)) _) eqn:E.
  - injection H as <- <-. split; [apply mineStep_hash | exact E].
  - eapply IH, H.
Qed.

Lemma mineLoop_finds fuel : ∀ b attempts n,
  (blk_nonce b < n ≤ 2 ^ 53)%N →
  qualifies b n = true →
  N.to_nat (n - blk_nonce b) ≤ fuel →
  ∃ b' attempts',
    mineLoop fuel b attempts = Some (b', attempts')
    ∧ (blk_nonce b < blk_nonce b' ≤ n)%N.
Proof.
  induction fuel as [|f IH]; intros b a n Hn Hq Hfuel; [lia |].
  rewrite mineLoop_S.
  assert (Hlt : (blk_nonce b < 2 ^ 53)%N) by lia.
  pose proof (mineStep_test b Hlt) as Ht.
  assert (Hnonce : blk_nonce (mineStep b) = (blk_nonce b + 1)%N)
    by (unfold mineStep; simpl; now rewrite incr_below).
  destruct (Js.startsWith (blk_hash (mineStep b)) _) eqn:E.
  - eexists _, _. split; [reflexivity |]. lia.
  - assert (n ≠ (blk_nonce b + 1)%N) by (intros ->; congruence).
    destruct (IH (mineStep b) (a + 1)%N n) as (b' & a' & Hm & Hb).
    + lia.
    + now rewrite mineStep_qualifies.
    + lia.
    + exists b', a'. split; [exact Hm | lia].
Qed.

Lemma mineLoop_more fuel : ∀ b attempts r,
  mineLoop fuel b attempts = Some r → mineLoop (S fuel) b attempts = Some r.
Proof.
  induction fuel as [|f IH]; intros b a r H; [discriminate |].
  rewrite mineLoop_S in H. rewrite (mineLoop_S (S f)). destruct (Js.startsWith (blk_hash (mineStep b)) _); [exact H |].
  apply IH, H.
Qed.

Lemma mineLoop_mono fuel fuel' b attempts r :
  fuel ≤ fuel' → mineLoop fuel b attempts = Some r → mineLoop fuel' b attempts = Some r.
Proof.
  induction 1 as [|k Hle IH]; [auto |]. intros H. apply mineLoop_more, IH, H.
Qed.

(** A block at the top of the counter is mined over and over with the same
    nonce. *)
Lemma mineLoop_stuck fuel : ∀ b attempts,
  blk_nonce b = (2 ^ 53)%N →
  qualifies b (2 ^ 53) = false →
  mineLoop fuel b attempts = None.
Proof.
  induction fuel as [|f IH]; intros b a Hn Hq; [reflexivity |].
  rewrite mineLoop_S.
  assert (Hnonce : blk_nonce (mineStep b) = (2 ^ 53)%N)
    by (unfold mineStep; simpl; rewrite Hn; reflexivity).
  assert (E : Js.startsWith (blk_hash (mineStep b)) (target (blk_difficulty (mineStep b)))
              = qualifies b (2 ^ 53)).
  { unfold qualifies, mineStep. simpl. rewrite Hn. reflexivity. }
  rewrite E, Hq. apply IH; [exact Hnonce |]. now rewrite mineStep_qualifies.
Qed.

Lemma mine_sealed fuel elapsed b b' attempts :
  mine fuel elapsed b = Some (b', attempts) → sealed b'.
Proof.
  unfold mine. destruct (mineLoop fuel b 0) as [[b1 a1]|] eqn:E; [| discriminate].
  intros H. injection H as <- <-. apply mineLoop_sealed in E. exact E.
Qed.

(** The search finishes as soon as a nonce above the current one, and
    within the reach of the counter, qualifies. *)
Lemma mine_finds b n elapsed :
  (blk_nonce b < n ≤ 2 ^ 53)%N →
  qualifies b n = true →
  ∃ fuel b' attempts,
    (∀ fuel', fuel ≤ fuel' → mine fuel' elapsed b = Some (b', attempts))
    ∧ sealed b' ∧ (blk_nonce b < blk_nonce b' ≤ n)%N.
Proof.
  intros Hn Hq.
  destruct (mineLoop_finds (N.to_nat (n - blk_nonce b)) b 0%N n Hn Hq (le_n _))
    as (b' & a' & Hm & Hb).
  exists (N.to_nat (n - blk_nonce b)), (set_miningTime b' elapsed), a'.
  split; [| split].
  - intros fuel' Hle. unfold mine. now rewrite (mineLoop_mono _ _ _ _ _ Hle Hm).
  - apply mineLoop_sealed in Hm. exact Hm.
  - exact Hb.
Qed.




(** ** Transaction.verify *)

(** The registry is a [Map]: a key has one entry. *)
Lemma registry_get_entry (reg : Registry) publicKey wallet :
  NoDup (List.map fst reg) →
  (publicKey, wallet) ∈ reg →
  registry_get reg publicKey = Some wallet.
Proof.
  unfold registry_get. induction reg as [|[pk w] reg IH]; intros Hnd Hin.
  - inversion Hin.
  - cbn [List.map fst] in Hnd. apply NoDup_cons in Hnd as [Hnot Hnd].
    cbn [find fst]. destruct (String.eqb_spec pk publicKey) as [->|Hne].
    + apply elem_of_cons in Hin as [Heq|Hin]; [now injection Heq as -> |].
      exfalso. apply Hnot. apply (list_elem_of_fmap_2 fst) in Hin. exact Hin.
    + apply elem_of_cons in Hin as [Heq|Hin]; [injection Heq as <- _; congruence |].
      now apply IH.
Qed.

Lemma ownerSigned_spec reg hash signature utxo :
  NoDup (List.map fst reg) →
  ownerSigned reg hash signature utxo = true ↔ validSignature reg hash signature utxo.
Proof.
  intros Hnd. unfold ownerSigned, validSignature. rewrite existsb_exists. split.
  - intros ([pk w] & Hin & H). apply andb_true_iff in H as [Ha Hs].
    apply list_elem_of_In in Hin. cbn [fst snd] in Ha, Hs.
    exists pk, w. split; [exact Hin |]. split; [now apply String.eqb_eq |].
    unfold verifySignature in Hs. rewrite (registry_get_entry _ _ _ Hnd Hin) in Hs.
    destruct signature as [sg|]; [| discriminate].
    apply String.eqb_eq in Hs. now subst sg.
  - intros (pk & w & Hin & Ha & ->). exists (pk, w).
    rewrite <- list_elem_of_In. split; [exact Hin |].
    cbn [fst snd]. apply andb_true_iff. split; [now apply String.eqb_eq |].
    unfold verifySignature. rewrite (registry_get_entry _ _ _ Hnd Hin).
    apply String.eqb_refl.
Qed.

Lemma fold_left_add_map {A : Type} (f : A → float) (l : list A) : ∀ acc,
  fold_left (fun sum a => (sum + f a)%float) l acc
  = fold_left PrimFloat.add (List.map f l) acc.
Proof. induction l as [|a l IH]; intros acc; [reflexivity | apply IH]. Qed.

Lemma getInputTotal_rounded u tx :
  getInputTotal u tx = roundedTotal (inputAmounts u tx).
Proof. apply fold_left_add_map. Qed.

Lemma outputTotal_rounded tx : outputTotal tx = roundedTotal (outputAmounts tx).
Proof. apply fold_left_add_map. Qed.

Lemma verifyInputs_spec reg u hash sigs inputs : ∀ i,
  verifyInputs reg u hash sigs i inputs = true
  ↔ ∀ k inp, inputs !! k = Some inp →
      ∃ utxo, u !! inputKey inp = Some utxo
              ∧ ownerSigned reg hash (sigs !! (i + k)) utxo = true.
Proof.
  induction inputs as [|inp0 rest IH]; intros i; simpl.
  - split; [intros _ k inp H; discriminate | reflexivity].
  - split.
    + intros H k inp Hk.
      destruct (u !! inputKey inp0) as [utxo|] eqn:Eu; [| discriminate].
      destruct (ownerSigned reg hash (sigs !! i) utxo) eqn:Es; [| discriminate].
      destruct k as [|k]; simpl in Hk.
      * injection Hk as <-. exists utxo. rewrite Nat.add_0_r. auto.
      * replace (i + S k) with (S i + k) by lia.
        exact (proj1 (IH (S i)) H k inp Hk).
    + intros H.
      destruct (H 0 inp0 eq_refl) as (utxo & -> & Hs).
      rewrite Nat.add_0_r in Hs. rewrite Hs.
      apply IH. intros k inp Hk.
      replace (S i + k) with (i + S k) by lia. apply (H (S k)), Hk.
Qed.

(** C4, amended.  [verify] accepts every coinbase; on another transaction
    it fails (returns [false]) when an input refers to an output that is
    not in the set, when for some input no registered wallet that owns the
    output has signed the hash in the signature of that input, and when the
    input total, added up in double arithmetic, is not at least the output
    total added up the same way; it succeeds when none of the three
    holds. *)
Theorem verify_spec (reg : Registry) (utxoSet : omap UTXO) (tx : Transaction) :
  NoDup (List.map fst reg) →
  (tx_isCoinbase tx = true → verify reg utxoSet tx = true)
  ∧ (tx_isCoinbase tx = false →
       (unknownInput utxoSet tx → verify reg utxoSet tx = false)
       ∧ (invalidSignature reg utxoSet tx → verify reg utxoSet tx = false)
       ∧ (roundedShortfall utxoSet tx → verify reg utxoSet tx = false)
       ∧ (¬ unknownInput utxoSet tx → ¬ invalidSignature reg utxoSet tx →
          ¬ roundedShortfall utxoSet tx → verify reg utxoSet tx = true)).
Proof.
  intros Hnd. unfold verify. split; [intros ->; reflexivity |]. intros ->.
  unfold roundedShortfall. rewrite <- getInputTotal_rounded, <- outputTotal_rounded.
  pose proof (verifyInputs_spec reg utxoSet (tx_hash tx) (tx_signatures tx) (tx_inputs tx) 0)
    as Hspec.
  destruct (verifyInputs reg utxoSet (tx_hash tx) (tx_signatures tx) 0 (tx_inputs tx)) eqn:E.
  - pose proof (proj1 Hspec eq_refl) as Hall. repeat split.
    + intros (inp & Hin & Hnone). apply list_elem_of_lookup in Hin as [k Hk].
      destruct (Hall k inp Hk) as (utxo & Hu & _). congruence.
    + intros (i & inp & utxo & Hi & Hu & Hbad). exfalso. apply Hbad.
      destruct (Hall i inp Hi) as (utxo' & Hu' & Hs).
      apply (ownerSigned_spec _ _ _ _ Hnd). simpl in Hs. congruence.
    + intros H. exact H.
    + intros _ _ H. now destruct (Num.ge _ _).
  - repeat split; try reflexivity.
    intros Hk Hs _. exfalso.
    assert (Hall : ∀ k inp, tx_inputs tx !! k = Some inp →
              ∃ utxo, utxoSet !! inputKey inp = Some utxo
                      ∧ ownerSigned reg (tx_hash tx) (tx_signatures tx !! (0 + k)) utxo = true).
    { intros k inp Hin.
      destruct (utxoSet !! inputKey inp) as [utxo|] eqn:Eu.
      - exists utxo. split; [reflexivity |].
        destruct (ownerSigned reg (tx_hash tx) (tx_signatures tx !! (0 + k)) utxo) eqn:Es;
          [reflexivity |].
        exfalso. apply Hs. exists k, inp, utxo. repeat split; auto.
        intros Hv. apply (ownerSigned_spec _ _ _ _ Hnd) in Hv. simpl in Es. congruence.
      - exfalso. apply Hk. exists inp. split; [| exact Eu].
        apply list_elem_of_lookup. eauto. }
    apply Hspec in Hall. discriminate.
Qed.

(** C4, an instance: a transaction whose only input is unknown. *)
Lemma verify_spec_witness :
  verify Demo.registry (utxoSet Demo.node0) Demo.fromNowhere = false.
Proof.
  refine (proj1 (proj2 (verify_spec Demo.registry (utxoSet Demo.node0) Demo.fromNowhere _)
                       eq_refl) _).
  - by_decision.
  - exists (mkInput "no-such-transaction" 0).
    split; [apply list_elem_of_In; left; reflexivity | vm_compute; reflexivity].
Defined.

(** C4 as stated fails: Alice spends an output of [2^53] and pays [2^53]
    to Bob and 1 to Carol.  The inputs total less than the outputs, and
    [verify] accepts the transaction: the sum [2^53 + 1] of the outputs
    rounds to [2^53]. *)
Lemma verify_rounding_counterexample :
  tx_isCoinbase Demo.oneTooMany = false
  ∧ inputAmounts Demo.bigLedger Demo.oneTooMany = [9007199254740992%float]
  ∧ outputAmounts Demo.oneTooMany = [9007199254740992%float; 1%float]
  ∧ insufficientFunds Demo.bigLedger Demo.oneTooMany
  ∧ verify Demo.registry Demo.bigLedger Demo.oneTooMany = true.
Proof.
  split; [reflexivity |]. split; [vm_compute; reflexivity |].
  split; [vm_compute; reflexivity |]. split; [| vm_compute; reflexivity].
  eexists _, _.
  split; [vm_compute; reflexivity |]. split; [vm_compute; reflexivity |].
  vm_compute. reflexivity.
Qed.

(** ** Module [Raw] on typed data *)

(** On data and ledgers in which every field is there, the functions of
    [Raw] do what the typed ones do: nothing is thrown besides the [Error]
    of [addToMempool]. *)

Lemma ofMap_lookup (u : omap UTXO) (key : string) :
  Raw.ofMap u !! key = Raw.ofUtxo <$> (u !! key).
Proof.
  destruct u as [l]. unfold lookup, omap_lookup, Raw.ofMap. cbn [entries].
  induction l as [|[k v] l IH]; [reflexivity |].
  cbn [List.map assoc fst snd]. destruct (String.eqb k key); [reflexivity | exact IH].
Qed.

Lemma ofMap_insert (u : omap UTXO) (key : string) (v : UTXO) :
  <[key := Raw.ofUtxo v]> (Raw.ofMap u) = Raw.ofMap (<[key := v]> u).
Proof.
  destruct u as [l]. unfold insert, omap_insert, Raw.ofMap. cbn [entries]. f_equal.
  induction l as [|[k w] l IH]; [reflexivity |].
  cbn [List.map assoc_set fst snd]. destruct (String.eqb k key); [reflexivity |].
  cbn [List.map fst snd]. now rewrite IH.
Qed.

Lemma ofMap_delete (u : omap UTXO) (key : string) :
  delete key (Raw.ofMap u) = Raw.ofMap (delete key u).
Proof.
  destruct u as [l]. unfold delete, omap_delete, Raw.ofMap. cbn [entries]. f_equal.
  induction l as [|[k w] l IH]; [reflexivity |].
  cbn [List.map assoc_delete fst snd]. destruct (String.eqb k key); [reflexivity |].
  cbn [List.map fst snd]. now rewrite IH.
Qed.

Lemma ofInput_key (inp : TxInput) : Raw.inputKey (Raw.ofInput inp) = inputKey inp.
Proof. reflexivity. Qed.

Lemma ownerSigned_typed reg (u : UTXO) hash signature :
  Raw.ownerSigned reg (Some hash) signature (Raw.ofUtxo u)
  = ownerSigned reg hash signature u.
Proof. reflexivity. Qed.

Lemma verifyInputs_typed reg (u : omap UTXO) hash signatures inputs : ∀ i,
  Raw.verifyInputs reg (Raw.ofMap u) (Some hash) signatures i (List.map Raw.ofInput inputs)
  = verifyInputs reg u hash signatures i inputs.
Proof.
  induction inputs as [|inp rest IH]; intros i; [reflexivity |].
  cbn [List.map Raw.verifyInputs verifyInputs].
  rewrite ofInput_key, ofMap_lookup. destruct (u !! inputKey inp) as [utxo|]; [| reflexivity].
  cbn [fmap option_fmap option_map]. rewrite ownerSigned_typed, IH. reflexivity.
Qed.

Lemma resolvedAmount_typed (u : omap UTXO) (inp : TxInput) :
  Raw.resolvedAmount (Raw.ofMap u) (Raw.ofInput inp) = resolvedAmount u inp.
Proof.
  unfold Raw.resolvedAmount, resolvedAmount. rewrite ofInput_key, ofMap_lookup.
  now destruct (u !! inputKey inp).
Qed.

Lemma fold_left_over_map {A B C : Type} (f : C → B → C) (g : A → B) (l : list A) :
  ∀ acc, fold_left f (List.map g l) acc = fold_left (fun c a => f c (g a)) l acc.
Proof. induction l as [|a l IH]; intros acc; [reflexivity | apply IH]. Qed.

Lemma fold_left_pointwise {A C : Type} (f g : C → A → C) (l : list A) :
  (∀ c a, f c a = g c a) → ∀ acc, fold_left f l acc = fold_left g l acc.
Proof.
  intros H. induction l as [|a l IH]; intros acc; [reflexivity |].
  cbn [fold_left]. now rewrite H, IH.
Qed.

Lemma verify_typed reg (u : omap UTXO) (tx : Transaction) :
  Raw.verify reg (Raw.ofMap u) (Raw.ofTx tx) = Returned (verify reg u tx).
Proof.
  unfold Raw.verify, verify, Raw.ofTx.
  cbn [Raw.t_isCoinbase Raw.t_inputs Raw.t_outputs Raw.t_hash Raw.t_signatures].
  destruct (tx_isCoinbase tx); [reflexivity |].
  rewrite verifyInputs_typed.
  destruct (verifyInputs reg u (tx_hash tx) (tx_signatures tx) 0 (tx_inputs tx));
    [| reflexivity].
  unfold getInputTotal, outputTotal. rewrite !fold_left_over_map.
  rewrite (fold_left_pointwise _ (fun sum inp => (sum + resolvedAmount u inp)%float))
    by (intros; now rewrite resolvedAmount_typed).
  reflexivity.
Qed.

Lemma addToMempool_typed reg (bc : Blockchain) (tx : Transaction) :
  Raw.addToMempool reg (Raw.ofLedger bc) (Raw.ofTx tx)
  = (fst (addToMempool reg bc tx), Raw.ofLedger (snd (addToMempool reg bc tx))).
Proof.
  unfold Raw.addToMempool, addToMempool.
  change (Raw.l_utxoSet (Raw.ofLedger bc)) with (Raw.ofMap (utxoSet bc)).
  rewrite verify_typed. change (Raw.t_isCoinbase (Raw.ofTx tx)) with (tx_isCoinbase tx).
  assert (Hpush : Raw.set_mempool (Raw.ofLedger bc)
                    (Raw.l_mempool (Raw.ofLedger bc) ++ [Raw.ofTx tx])
                  = Raw.ofLedger (set_mempool bc (mempool bc ++ [tx]))).
  { unfold Raw.ofLedger, Raw.set_mempool. cbn. now rewrite map_app. }
  destruct (tx_isCoinbase tx); cbn [negb andb fst snd]; [now rewrite Hpush |].
  destruct (verify reg (utxoSet bc) tx); cbn [negb fst snd]; [now rewrite Hpush | reflexivity].
Qed.

Lemma addOutputs_typed hash (outputs : list TxOutput) : ∀ idx (u : omap UTXO),
  Raw.addOutputs (Some hash) idx (List.map Raw.ofOutput outputs) (Raw.ofMap u)
  = Raw.ofMap (addOutputs hash idx outputs u).
Proof.
  induction outputs as [|out rest IH]; intros idx u; [reflexivity |].
  cbn [List.map Raw.addOutputs addOutputs]. rewrite <- IH. f_equal.
  apply (ofMap_insert u (utxoKey hash idx) (mkUTXO (out_address out) (out_amount out))).
Qed.

Lemma spend_typed (inputs : list TxInput) : ∀ (u : omap UTXO),
  fold_left (fun m inp => delete (Raw.inputKey inp) m) (List.map Raw.ofInput inputs)
            (Raw.ofMap u)
  = Raw.ofMap (fold_left (fun m inp => delete (inputKey inp) m) inputs u).
Proof.
  induction inputs as [|inp rest IH]; intros u; [reflexivity |].
  cbn [List.map fold_left]. rewrite ofInput_key, ofMap_delete. apply IH.
Qed.

Lemma processTx_typed (u : omap UTXO) (tx : Transaction) :
  Raw.processTx (Raw.ofMap u) (Raw.ofTx tx) = (Raw.ofMap (processTx u tx), None).
Proof.
  unfold Raw.processTx, processTx, spendInputs, Raw.ofTx.
  cbn [Raw.t_isCoinbase Raw.t_inputs Raw.t_outputs Raw.t_hash].
  destruct (tx_isCoinbase tx).
  - now rewrite addOutputs_typed.
  - now rewrite spend_typed, addOutputs_typed.
Qed.

Lemma processTxs_typed (txs : list Transaction) : ∀ (u : omap UTXO),
  Raw.processTxs (Raw.ofMap u) (List.map Raw.ofTx txs)
  = (Raw.ofMap (fold_left processTx txs u), None).
Proof.
  induction txs as [|tx rest IH]; intros u; [reflexivity |].
  cbn [List.map Raw.processTxs fold_left]. rewrite processTx_typed. apply IH.
Qed.

Lemma restoreTx_typed (tx : Transaction) :
  Raw.restoreTx (Raw.txData tx) = Raw.ofTx (restoreTx tx).
Proof. reflexivity. Qed.

Lemma restoreBlock_typed (b : Block) :
  Raw.restoreBlock (Raw.blockData b) = Returned (Raw.ofBlock (restoreBlock b)).
Proof.
  unfold Raw.restoreBlock, Raw.blockData, Raw.ofBlock, restoreBlock.
  cbn. now rewrite !map_map.
Qed.

Lemma rebuildChainFromData_typed (data : list Block) : ∀ (bc : Blockchain),
  Raw.rebuildChainFromData (Raw.ofLedger bc) (List.map Raw.blockData data)
  = (Raw.ofLedger (rebuildChainFromData bc data), None).
Proof.
  unfold rebuildChainFromData.
  induction data as [|b rest IH]; intros bc; [reflexivity |].
  cbn [List.map Raw.rebuildChainFromData fold_left]. rewrite restoreBlock_typed.
  unfold Raw._processBlockUTXOs.
  change (Raw.b_transactions (Raw.ofBlock (restoreBlock b)))
    with (List.map Raw.ofTx (blk_transactions (restoreBlock b))).
  change (Raw.l_utxoSet (Raw.ofLedger bc)) with (Raw.ofMap (utxoSet bc)).
  rewrite processTxs_typed. rewrite <- IH. f_equal.
  unfold Raw.set_ledger, Raw.ofLedger, pushBlock, _processBlockUTXOs. cbn.
  now rewrite map_app.
Qed.

(** [Raw.handleChainResponse] and [handleChainResponse] agree on typed
    data. *)
Lemma handleChainResponse_typed (bc : Blockchain) (chainData : list Block) :
  Raw.handleChainResponse (Raw.ofLedger bc) (List.map Raw.blockData chainData)
  = (Raw.ofLedger (fst (handleChainResponse bc chainData)),
     List.flat_map ofEffect (snd (handleChainResponse bc chainData))).
Proof.
  unfold Raw.handleChainResponse, handleChainResponse.
  rewrite length_map. change (Raw.l_chain (Raw.ofLedger bc)) with (List.map Raw.ofBlock (chain bc)).
  rewrite length_map.
  destruct (length chainData <=? length (chain bc)); [reflexivity |].
  rewrite rebuildChainFromData_typed.
  change (Raw.set_ledger (Raw.ofLedger (rebuildChainFromData bc chainData)) [] ∅)
    with (Raw.ofLedger (resetLedger (rebuildChainFromData bc chainData))).
  now rewrite rebuildChainFromData_typed.
Qed.

(** [Raw.handleNewTx] and [handleNewTx] agree on typed data. *)
Lemma handleNewTx_typed reg (bc : Blockchain) (txd : Transaction) :
  Raw.handleNewTx reg (Raw.ofLedger bc) (Raw.txData txd)
  = (Raw.ofLedger (fst (handleNewTx reg bc txd)),
     List.flat_map ofEffect (snd (handleNewTx reg bc txd))).
Proof.
  unfold Raw.handleNewTx, handleNewTx.
  change (Raw.l_mempool (Raw.ofLedger bc)) with (List.map Raw.ofTx (mempool bc)).
  assert (E : existsb (fun t => Raw.sameHash (Raw.t_hash t) (Raw.d_hash (Raw.txData txd)))
                      (List.map Raw.ofTx (mempool bc))
              = existsb (fun t => String.eqb (tx_hash t) (tx_hash txd)) (mempool bc)).
  { induction (mempool bc) as [|t pool IH]; [reflexivity |].
    cbn [List.map existsb]. now rewrite IH. }
  rewrite E. destruct (existsb _ (mempool bc)); [reflexivity |].
  rewrite restoreTx_typed, addToMempool_typed.
  destruct (addToMempool reg bc (restoreTx txd)) as [[r|e] bc']; reflexivity.
Qed.

(** ** addToMempool and the NEW_TX handler *)

(** C8.  [addToMempool] on a transaction that does not verify against the
    current unspent outputs throws [Error('Invalid transaction')] and leaves
    the whole state as it was; on a transaction that verifies it returns
    [true] with the transaction appended to the mempool, the chain and the
    unspent outputs untouched. *)
Theorem addToMempool_atomic (reg : Registry) (bc : Blockchain) (tx : Transaction) :
  (verify reg (utxoSet bc) tx = false →
     addToMempool reg bc tx = (Thrown InvalidTransaction, bc))
  ∧ (verify reg (utxoSet bc) tx = true →
       ∃ bc', addToMempool reg bc tx = (Returned true, bc')
              ∧ mempool bc' = mempool bc ++ [tx]
              ∧ chain bc' = chain bc
              ∧ utxoSet bc' = utxoSet bc).
Proof.
  unfold addToMempool, verify. destruct (tx_isCoinbase tx); simpl.
  - split; [discriminate |]. intros _. eexists. repeat split.
  - destruct (verifyInputs _ _ _ _ _ _); simpl.
    + destruct (Num.ge (getInputTotal (utxoSet bc) tx) (outputTotal tx)); simpl;
        (split; [try discriminate; reflexivity |]);
        intros H; try discriminate; eexists; repeat split.
    + split; [reflexivity | discriminate].
Qed.

(** C8, an instance: a transaction that spends an unknown output. *)
Lemma addToMempool_atomic_witness :
  addToMempool Demo.registry Demo.node0 Demo.fromNowhere
  = (Thrown InvalidTransaction, Demo.node0).
Proof.
  apply (proj1 (addToMempool_atomic Demo.registry Demo.node0 Demo.fromNowhere)).
  vm_compute. reflexivity.
Defined.

Lemma restoreTx_id txd : restoreTx txd = txd.
Proof. destruct txd; reflexivity. Qed.

Lemma sameHash_spec (a b : option string) : Raw.sameHash a b = true ↔ a = b.
Proof.
  destruct a as [x|], b as [y|]; cbn; try (split; [discriminate | discriminate]).
  - rewrite String.eqb_eq. split; [now intros -> | now intros [= ->]].
  - split; reflexivity.
Qed.

Lemma existsb_sameHash_spec (h : option string) (pool : list Raw.Tx) :
  existsb (fun t => Raw.sameHash (Raw.t_hash t) h) pool = true
  ↔ ∃ t, t ∈ pool ∧ Raw.t_hash t = h.
Proof.
  rewrite existsb_exists. split; intros (t & Hin & H); exists t.
  - rewrite list_elem_of_In. apply sameHash_spec in H. auto.
  - rewrite <- list_elem_of_In. split; [auto | now apply sameHash_spec].
Qed.



(** C10, another instance: a message with [isCoinbase] set and no
    [outputs] is admitted as well; it is not relayed. *)
Remark coinbase_without_outputs :
  Raw.d_isCoinbase Demo.holedTx = Some true
  ∧ Raw.d_outputs Demo.holedTx = None
  ∧ Raw.handleNewTx Demo.registry (Raw.ofLedger Demo.node0) Demo.holedTx
    = (Raw.set_mempool (Raw.ofLedger Demo.node0) [Raw.restoreTx Demo.holedTx], []).
Proof. split; [reflexivity |]. split; [reflexivity |]. by_decision. Qed.



(** ** The NEW_BLOCK and CHAIN_RESPONSE handlers *)

Lemma rebuildChainFromData_spec data : ∀ bc,
  rebuildChainFromData bc data = replayed bc (List.map restoreBlock data).
Proof.
  unfold rebuildChainFromData, replayed.
  induction data as [|d rest IH]; intros bc; simpl.
  - rewrite app_nil_r. now destruct bc.
  - rewrite IH. unfold pushBlock. simpl. rewrite <- app_assoc. reflexivity.
Qed.

(** C9.  A NEW_BLOCK whose [previousHash] is the hash of the local tip and
    whose transmitted [hash] starts with [difficulty] zeros is appended and
    its outputs applied; the digest of its header and its Merkle root are
    not recomputed, so a node whose chain passes [validateChain] can be left
    with one that fails it, for a hash mismatch or for a Merkle
    mismatch. *)
Theorem handleNewBlock_trusts_hash_field :
  (∀ (bc : Blockchain) (blockData lastBlock : Block),
      last (chain bc) = Some lastBlock →
      blk_previousHash blockData = blk_hash lastBlock →
      Js.startsWith (blk_hash blockData) (target (blk_difficulty blockData)) = true →
      ∃ bc', handleNewBlock bc blockData
             = Returned (bc', [SaveChain; BroadcastNewBlock blockData])
             ∧ chain bc' = chain bc ++ [restoreBlock blockData]
             ∧ utxoSet bc' = _processBlockUTXOs (utxoSet bc) (restoreBlock blockData))
  ∧ (∃ bc blockData bc' effects,
        validateChain bc = Valid
        ∧ handleNewBlock bc blockData = Returned (bc', effects)
        ∧ blk_hash blockData ≠ sha256 (getHeaderString (restoreBlock blockData))
        ∧ validateChain bc' = Invalid 1 "hash mismatch")
  ∧ (∃ bc blockData bc' effects,
        validateChain bc = Valid
        ∧ handleNewBlock bc blockData = Returned (bc', effects)
        ∧ blk_merkleRoot blockData
          ≠ computeRoot (List.map tx_hash (blk_transactions (restoreBlock blockData)))
        ∧ validateChain bc' = Invalid 1 "merkle mismatch").
Proof.
  split; [| split].
  - intros bc blockData lastBlock Hlast Hprev Hpow.
    unfold handleNewBlock. rewrite Hlast, Hprev, String.eqb_refl, Hpow. simpl.
    eexists. split; [reflexivity |]. split; reflexivity.
  - exists Demo.node0, Demo.forgedBlock, (accepted Demo.node0 Demo.forgedBlock),
      [SaveChain; BroadcastNewBlock Demo.forgedBlock].
    split; [vm_compute; reflexivity |]. split; [vm_compute; reflexivity |].
    split; [vm_compute; discriminate | vm_compute; reflexivity].
  - exists Demo.node0, Demo.forgedRootBlock, (accepted Demo.node0 Demo.forgedRootBlock),
      [SaveChain; BroadcastNewBlock Demo.forgedRootBlock].
    split; [vm_compute; reflexivity |]. split; [vm_compute; reflexivity |].
    split; [vm_compute; discriminate | vm_compute; reflexivity].
Qed.

(** C9, an instance: the forged block, offered to a node that holds the
    genesis block alone. *)
Lemma handleNewBlock_trusts_hash_field_witness :
  ∃ bc', handleNewBlock Demo.node0 Demo.forgedBlock
         = Returned (bc', [SaveChain; BroadcastNewBlock Demo.forgedBlock])
         ∧ chain bc' = chain Demo.node0 ++ [restoreBlock Demo.forgedBlock]
         ∧ utxoSet bc'
           = _processBlockUTXOs (utxoSet Demo.node0) (restoreBlock Demo.forgedBlock).
Proof.
  apply (proj1 handleNewBlock_trusts_hash_field Demo.node0 Demo.forgedBlock Demo.genesis).
  - vm_compute. reflexivity.
  - vm_compute. reflexivity.
  - vm_compute. reflexivity.
Defined.

Lemma processTx_throwing (u : omap Raw.Utxo) (tx : Raw.Tx) :
  snd (Raw.processTx u tx) = if Raw.throwing tx then Some TypeError else None.
Proof.
  unfold Raw.processTx, Raw.throwing.
  destruct (Raw.t_isCoinbase tx), (Raw.t_inputs tx), (Raw.t_outputs tx); reflexivity.
Qed.

Lemma processTxs_throwing (txs : list Raw.Tx) : ∀ (u : omap Raw.Utxo),
  snd (Raw.processTxs u txs)
  = if forallb (fun tx => negb (Raw.throwing tx)) txs then None else Some TypeError.
Proof.
  induction txs as [|tx rest IH]; intros u; [reflexivity |].
  cbn [Raw.processTxs forallb]. pose proof (processTx_throwing u tx) as H.
  destruct (Raw.processTx u tx) as [u1 [e|]]; cbn [snd] in H.
  - destruct (Raw.throwing tx); [injection H as -> | discriminate]. reflexivity.
  - destruct (Raw.throwing tx); [discriminate |]. cbn [negb andb]. apply IH.
Qed.

Lemma forallb_map {A B : Type} (f : B → bool) (g : A → B) (l : list A) :
  forallb f (List.map g l) = forallb (fun a => f (g a)) l.
Proof. induction l as [|a l IH]; [reflexivity |]. cbn. now rewrite IH. Qed.

(** A chain that is replayable rebuilds without a throw: every block of
    the message is pushed and applied. *)
Lemma rebuild_replayable (chainData : list Raw.BlockData) : ∀ (l : Raw.Ledger),
  Raw.replayable chainData = true →
  Raw.rebuildChainFromData l chainData
  = (Raw.set_ledger l (Raw.l_chain l ++ Raw.blocksOf chainData)
                    (Raw.applied (Raw.l_utxoSet l) (Raw.blocksOf chainData)),
     None)
  ∧ length (Raw.blocksOf chainData) = length chainData.
Proof.
  induction chainData as [|bd rest IH]; intros l Hr.
  - cbn. rewrite app_nil_r. now destruct l.
  - cbn [Raw.replayable forallb] in Hr. apply andb_true_iff in Hr as [Hbd Hrest].
    cbn [Raw.rebuildChainFromData Raw.blocksOf flat_map]. unfold Raw.restoreBlock.
    destruct (Raw.bd_transactions bd) as [txds|] eqn:Etx; [| discriminate].
    set (block := Raw.mkBlock _ _ _ _ _ _ _ _ _).
    pose proof (processTxs_throwing (Raw.b_transactions block) (Raw.l_utxoSet l)) as Hs.
    cbn [Raw.b_transactions block] in Hs. rewrite forallb_map, Hbd in Hs.
    unfold Raw._processBlockUTXOs at 1. cbn [Raw.b_transactions block].
    destruct (Raw.processTxs (Raw.l_utxoSet l) (List.map Raw.restoreTx txds))
      as [u1 oe] eqn:Ep.
    cbn [snd] in Hs. subst oe.
    destruct (IH (Raw.set_ledger l (Raw.l_chain l ++ [block]) u1) Hrest) as [-> Hlen].
    split; [| cbn [app length]; f_equal; exact Hlen].
    unfold Raw.set_ledger. cbn [Raw.l_chain Raw.l_utxoSet Raw.l_mempool Raw.l_difficulty
                                Raw.l_miningStats app].
    rewrite <- app_assoc. cbn [app Raw.applied fold_left].
    unfold Raw._processBlockUTXOs at 2. cbn [Raw.b_transactions block]. now rewrite Ep.
Qed.

(** Whatever the chain of a message, a rebuild leaves the blocks that were
    there, followed by the blocks it pushed; it touches neither the mempool
    nor the other fields; and it throws exactly when the chain is not
    replayable. *)
Lemma rebuild_pushed (chainData : list Raw.BlockData) : ∀ (l : Raw.Ledger),
  ∃ k, k ≤ length chainData
       ∧ Raw.l_chain (fst (Raw.rebuildChainFromData l chainData))
         = Raw.l_chain l ++ Raw.blocksOf (take k chainData)
       ∧ Raw.l_mempool (fst (Raw.rebuildChainFromData l chainData)) = Raw.l_mempool l
       ∧ snd (Raw.rebuildChainFromData l chainData)
         = if Raw.replayable chainData then None else Some TypeError.
Proof.
  induction chainData as [|bd rest IH]; intros l.
  - exists 0. cbn. rewrite app_nil_r. auto.
  - cbn [Raw.rebuildChainFromData Raw.replayable forallb]. unfold Raw.restoreBlock.
    destruct (Raw.bd_transactions bd) as [txds|] eqn:Etx.
    + set (block := Raw.mkBlock _ _ _ _ _ _ _ _ _).
      pose proof (processTxs_throwing (Raw.b_transactions block) (Raw.l_utxoSet l)) as Hs.
      cbn [Raw.b_transactions block] in Hs. rewrite forallb_map in Hs.
      unfold Raw._processBlockUTXOs. cbn [Raw.b_transactions block].
      destruct (Raw.processTxs (Raw.l_utxoSet l) (List.map Raw.restoreTx txds))
        as [u1 [e|]] eqn:Ep; cbn [snd] in Hs.
      * exists 1. cbn [fst snd take length Raw.blocksOf flat_map Raw.set_ledger
                       Raw.l_chain Raw.l_mempool].
        unfold Raw.restoreBlock. rewrite Etx. fold block. cbn [app].
        split; [lia |]. split; [reflexivity |]. split; [reflexivity |].
        destruct (forallb _ txds); [discriminate |]. now injection Hs as ->.
      * destruct (IH (Raw.set_ledger l (Raw.l_chain l ++ [block]) u1))
          as (k & Hk & Hc & Hm & Ht).
        exists (S k). cbn [take length Raw.blocksOf flat_map].
        unfold Raw.restoreBlock at 1. rewrite Etx. fold block.
        split; [lia |]. rewrite Hc, Hm, Ht.
        cbn [Raw.set_ledger Raw.l_chain Raw.l_mempool]. rewrite <- app_assoc. cbn [app].
        split; [reflexivity |]. split; [reflexivity |].
        destruct (forallb _ txds); [reflexivity | discriminate].
    + exists 0. cbn. rewrite app_nil_r. repeat split; lia.
Qed.




(** ** Mining on top of a lone genesis block *)

Lemma mineLoop_transactions fuel : ∀ b attempts b' attempts',
  mineLoop fuel b attempts = Some (b', attempts') →
  blk_transactions b' = blk_transactions b.
Proof.
  induction fuel as [|f IH]; intros b a b' a' H; [discriminate |].
  rewrite mineLoop_S in H.
  destruct (Js.startsWith (blk_hash (mineStep b)) _).
  - injection H as <- <-. reflexivity.
  - apply IH in H. now rewrite H.
Qed.

Lemma mine_transactions fuel elapsed b b' attempts :
  mine fuel elapsed b = Some (b', attempts) →
  blk_transactions b' = blk_transactions b.
Proof.
  unfold mine. destruct (mineLoop fuel b 0) as [[b1 a1]|] eqn:E; [| discriminate].
  intros H. injection H as <- <-. simpl. eapply mineLoop_transactions, E.
Qed.

Lemma mine_mono fuel fuel' elapsed b r :
  fuel ≤ fuel' → mine fuel elapsed b = Some r → mine fuel' elapsed b = Some r.
Proof.
  unfold mine. intros Hle.
  destruct (mineLoop fuel b 0) as [[b1 a1]|] eqn:E; [| discriminate].
  now rewrite (mineLoop_mono _ _ _ _ _ Hle E).
Qed.

(** Two runs of the search that both finish give the same result. *)
Lemma mine_deterministic fuel fuel' elapsed b r r' :
  mine fuel elapsed b = Some r → mine fuel' elapsed b = Some r' → r = r'.
Proof.
  intros H H'.
  apply (mine_mono _ (Nat.max fuel fuel')) in H; [| lia].
  apply (mine_mono _ (Nat.max fuel fuel')) in H'; [| lia].
  congruence.
Qed.

Lemma mineLoop_sameBody fuel : ∀ b attempts b' attempts',
  mineLoop fuel b attempts = Some (b', attempts') → sameBody b b'.
Proof.
  induction fuel as [|f IH]; intros b a b' a' H; [discriminate |].
  rewrite mineLoop_S in H.
  destruct (Js.startsWith (blk_hash (mineStep b)) _).
  - injection H as <- <-. repeat split.
  - apply IH in H. exact H.
Qed.

Lemma mine_sameBody fuel elapsed b b' attempts :
  mine fuel elapsed b = Some (b', attempts) → sameBody b b'.
Proof.
  unfold mine. destruct (mineLoop fuel b 0) as [[b1 a1]|] eqn:E; [| discriminate].
  intros H. injection H as <- <-. apply mineLoop_sameBody in E. exact E.
Qed.

(** [map.set] of a key that is not there adds the entry at the end. *)
Lemma assoc_set_fresh {V : Type} (key : string) (value : V) (l : list (string * V)) :
  assoc key l = None → assoc_set key value l = l ++ [(key, value)].
Proof.
  induction l as [|[k v] l IH]; [reflexivity |].
  cbn [assoc assoc_set app]. destruct (String.eqb k key); [discriminate |].
  intros H. now rewrite IH.
Qed.

Lemma insert_fresh_entries {V : Type} (u : omap V) (key : string) (value : V) :
  u !! key = None → entries (<[key := value]> u) = entries u ++ [(key, value)].
Proof. intros H. apply assoc_set_fresh, H. Qed.

(** The loop of [getBalance] after such a [map.set]: the amount of the new
    entry is added last, when the entry belongs to the address. *)
Lemma balanceSum_insert_fresh (u : omap UTXO) (key owner address : string) (amount : float) :
  u !! key = None →
  balanceSum (<[key := mkUTXO owner amount]> u) address
  = if String.eqb owner address then (balanceSum u address + amount)%float
    else balanceSum u address.
Proof.
  intros H. unfold balanceSum. rewrite (insert_fresh_entries _ _ _ H), fold_left_app.
  reflexivity.
Qed.

Lemma processBlock_coinbase (u : omap UTXO) b now address reward height :
  blk_transactions b = [createCoinbase now address reward height] →
  _processBlockUTXOs u b
  = <[utxoKey (tx_hash (createCoinbase now address reward height)) 0
      := mkUTXO address reward]> u.
Proof. intros H. unfold _processBlockUTXOs. rewrite H. reflexivity. Qed.

(** The unspent outputs of a ledger that [initialize] made: the one output
    of the first coinbase. *)
Lemma initialize_utxoSet fuel clock d address genesis bc :
  initialize fuel clock (newBlockchain d) address = Some (genesis, bc) →
  utxoSet bc
  = <[utxoKey (tx_hash (createCoinbase (txTime clock) address (MINING_REWARD * 100) 0)) 0
      := mkUTXO address (MINING_REWARD * 100)]> ∅.
Proof.
  unfold initialize.
  destruct (mine fuel (elapsed clock) _) as [[g a]|] eqn:E; [| discriminate].
  intros H. injection H as <- <-. cbn [utxoSet recordMining pushBlock newBlockchain].
  apply processBlock_coinbase. apply mine_transactions in E. exact E.
Qed.



(** C6, in numbers: on the demo ledger, which [initialize] made for Alice,
    a block mined by Bob takes his balance from 0 to 50 and leaves Alice's
    at 5000; a block mined by Alice takes hers from 5000 to 5050. *)
Remark mineBlock_on_genesis_balances :
  getBalance Demo.node0 Demo.bob = 0%float
  ∧ getBalance Demo.node0 Demo.alice = 5000%float
  ∧ (∃ block bc',
       mineBlock 16 (mkClock 3000 3008 4) Demo.node0 Demo.bob = Some (Returned (block, bc'))
       ∧ getBalance bc' Demo.bob = 50%float
       ∧ getBalance bc' Demo.alice = 5000%float)
  ∧ (∃ block bc',
       mineBlock 64 (mkClock 3000 3008 4) Demo.node0 Demo.alice = Some (Returned (block, bc'))
       ∧ getBalance bc' Demo.alice = 5050%float).
Proof.
  split; [vm_compute; reflexivity |]. split; [vm_compute; reflexivity |]. split.
  - eexists _, _. split; [vm_compute; reflexivity |].
    split; vm_compute; reflexivity.
  - eexists _, _. split; [vm_compute; reflexivity |]. vm_compute. reflexivity.
Qed.


(** ** validateChain reads a transaction through its stored hash *)

Lemma last_cons_default {A} (l : list A) : ∀ a d, List.last (a :: l) d = List.last l a.
Proof.
  induction l as [|b l IH]; intros a d; [reflexivity |].
  change (List.last (a :: b :: l) d) with (List.last (b :: l) d).
  now rewrite !IH.
Qed.

Lemma validateFrom_app pre : ∀ i prev rest,
  validateFrom i prev (pre ++ rest)
  = match validateFrom i prev pre with
    | Valid => validateFrom (i + length pre) (List.last pre prev) rest
    | failure => failure
    end.
Proof.
  induction pre as [|p pre IH]; intros i prev rest.
  - simpl. now rewrite Nat.add_0_r.
  - change ((p :: pre) ++ rest) with (p :: (pre ++ rest)).
    cbn [validateFrom]. destruct (checkBlock prev p) as [failure|].
    + reflexivity.
    + rewrite IH. replace (S i + length pre) with (i + length (p :: pre)) by (simpl; lia).
      now rewrite last_cons_default.
Qed.

Lemma checkBlock_prev_hash p p' b :
  blk_hash p = blk_hash p' → checkBlock p b = checkBlock p' b.
Proof. unfold checkBlock. now intros ->. Qed.

Lemma validateFrom_prev_hash i p p' rest :
  blk_hash p = blk_hash p' → validateFrom i p rest = validateFrom i p' rest.
Proof.
  intros H. destruct rest as [|b rest]; [reflexivity |].
  simpl. now rewrite (checkBlock_prev_hash p p' b H).
Qed.

Lemma checkBlock_set_transactions prev b txs :
  checkBlock prev b = None →
  checkBlock prev (set_transactions b txs)
  = if String.eqb (computeRoot (List.map tx_hash txs)) (blk_merkleRoot b)
    then None else Some "merkle mismatch".
Proof.
  unfold checkBlock. cbn [set_transactions blk_previousHash blk_hash blk_difficulty
                          blk_merkleRoot blk_transactions].
  change (getHeaderString (set_transactions b txs)) with (getHeaderString b).
  destruct (negb (String.eqb (blk_previousHash b) (blk_hash prev))); [discriminate |].
  destruct (negb (Js.startsWith (blk_hash b) (target (blk_difficulty b)))); [discriminate |].
  destruct (negb (String.eqb (sha256 (getHeaderString b)) (blk_hash b))); [discriminate |].
  intros _. now destruct (String.eqb (computeRoot (List.map tx_hash txs)) (blk_merkleRoot b)).
Qed.

Lemma checkBlock_merkleRoot prev b :
  checkBlock prev b = None →
  computeRoot (List.map tx_hash (blk_transactions b)) = blk_merkleRoot b.
Proof.
  unfold checkBlock.
  destruct (negb (String.eqb (blk_previousHash b) (blk_hash prev))); [discriminate |].
  destruct (negb (Js.startsWith (blk_hash b) (target (blk_difficulty b)))); [discriminate |].
  destruct (negb (String.eqb (sha256 (getHeaderString b)) (blk_hash b))); [discriminate |].
  destruct (String.eqb _ (blk_merkleRoot b)) eqn:E; [| discriminate].
  intros _. now apply String.eqb_eq.
Qed.

(** The chain [genesis :: pre ++ b :: post] once the transactions of [b]
    are replaced by [txs]. *)
Lemma validateFrom_tampered genesis pre b post txs :
  validateFrom 1 genesis (pre ++ b :: post) = Valid →
  validateFrom 1 genesis (pre ++ set_transactions b txs :: post)
  = if String.eqb (computeRoot (List.map tx_hash txs)) (blk_merkleRoot b)
    then Valid else Invalid (1 + length pre) "merkle mismatch".
Proof.
  rewrite !validateFrom_app.
  destruct (validateFrom 1 genesis pre); [| discriminate].
  cbn [validateFrom].
  destruct (checkBlock (List.last pre genesis) b) as [reason|] eqn:E; [discriminate |].
  intros Hpost. rewrite (checkBlock_set_transactions _ _ txs E).
  destruct (String.eqb _ (blk_merkleRoot b)); [| reflexivity].
  rewrite (validateFrom_prev_hash _ (set_transactions b txs) b) by reflexivity.
  exact Hpost.
Qed.

(** C5, amended.  On a chain that [validateChain] accepts, replacing the
    transactions of a block after genesis makes [validateChain] report a
    Merkle mismatch at that block's index exactly when the root recomputed
    from the stored [hash] fields of the new transactions differs from the
    stored [merkleRoot], which is the root of the stored hashes of the old
    ones; otherwise the chain is accepted as before.  So the chain stays
    accepted as long as the stored [hash] fields are the same, whatever
    else changed in the transactions, and it is refused when the block
    holds one transaction and its stored hash is changed. *)
Theorem validateChain_stored_hashes (bc : Blockchain) (genesis b : Block)
    (pre post : list Block) (txs : list Transaction) :
  chain bc = genesis :: pre ++ b :: post →
  validateChain bc = Valid →
  let bc' := set_chain bc (genesis :: pre ++ set_transactions b txs :: post) in
  validateChain bc'
  = (if String.eqb (computeRoot (List.map tx_hash txs)) (blk_merkleRoot b)
     then Valid else Invalid (1 + length pre) "merkle mismatch")
  ∧ blk_merkleRoot b = computeRoot (List.map tx_hash (blk_transactions b))
  ∧ (validateChain bc' = Invalid (1 + length pre) "merkle mismatch"
     ↔ computeRoot (List.map tx_hash txs) ≠ blk_merkleRoot b)
  ∧ (validateChain bc' = Valid
     ↔ computeRoot (List.map tx_hash txs) = blk_merkleRoot b)
  ∧ (List.map tx_hash txs = List.map tx_hash (blk_transactions b) →
       validateChain bc' = Valid)
  ∧ (∀ tx tx', blk_transactions b = [tx] → txs = [tx'] → tx_hash tx' ≠ tx_hash tx →
       validateChain bc' = Invalid (1 + length pre) "merkle mismatch").
Proof.
  intros Hchain Hvalid bc'. unfold validateChain in *. rewrite Hchain in Hvalid.
  subst bc'. cbn [set_chain chain].
  rewrite (validateFrom_tampered _ _ _ _ txs Hvalid).
  split; [reflexivity |].
  assert (Hroot : computeRoot (List.map tx_hash (blk_transactions b)) = blk_merkleRoot b).
  { rewrite validateFrom_app in Hvalid.
    destruct (validateFrom 1 genesis pre); [| discriminate].
    cbn [validateFrom] in Hvalid.
    destruct (checkBlock (List.last pre genesis) b) eqn:E; [discriminate |].
    eapply checkBlock_merkleRoot, E. }
  split; [now rewrite Hroot |]. split; [| split; [| split]].
  - destruct (String.eqb_spec (computeRoot (List.map tx_hash txs)) (blk_merkleRoot b))
      as [E|E]; split; intros H; try discriminate; try reflexivity; now auto.
  - destruct (String.eqb_spec (computeRoot (List.map tx_hash txs)) (blk_merkleRoot b))
      as [E|E]; split; intros H; try discriminate; try reflexivity; now auto.
  - intros ->. rewrite Hroot, String.eqb_refl. reflexivity.
  - intros tx tx' Hb -> Hne. rewrite Hb in Hroot. cbn in Hroot.
    assert (E : String.eqb (computeRoot (List.map tx_hash [tx'])) (blk_merkleRoot b) = false).
    { apply String.eqb_neq. cbn. congruence. }
    now rewrite E.
Qed.

(** C5, an instance: the payment to Bob changed from 10 to 90 in the
    stored block. *)
Lemma validateChain_stored_hashes_witness :
  validateChain Demo.tamperedNode = Valid.
Proof.
  refine (proj1 (proj2 (proj2 (proj2 (proj2
            (validateChain_stored_hashes Demo.node3 Demo.genesis Demo.block1 [] []
               (List.map Demo.overpaid (blk_transactions Demo.block1)) _ _))))) _).
  - vm_compute. reflexivity.
  - vm_compute. reflexivity.
  - vm_compute. reflexivity.
Defined.

(** C5 as stated fails: the amount of a confirmed payment is changed in
    block 1 of a chain that [validateChain] accepts, and [validateChain]
    accepts the altered chain as well. *)
Lemma tamper_undetected_counterexample :
  validateChain Demo.node3 = Valid
  ∧ chain Demo.node3 = [Demo.genesis; Demo.block1]
  ∧ blk_transactions Demo.block1 !! 1 = Some Demo.toBob
  ∧ List.map out_amount (tx_outputs Demo.toBob) = [10%float; 4990%float]
  ∧ List.map out_amount (tx_outputs (Demo.overpaid Demo.toBob)) = [90%float; 4990%float]
  ∧ chain Demo.tamperedNode
    = [Demo.genesis;
       set_transactions Demo.block1 (List.map Demo.overpaid (blk_transactions Demo.block1))]
  ∧ validateChain Demo.tamperedNode = Valid.
Proof.
  split; [vm_compute; reflexivity |]. split; [vm_compute; reflexivity |].
  split; [vm_compute; reflexivity |]. split; [vm_compute; reflexivity |].
  split; [vm_compute; reflexivity |]. split; [reflexivity |].
  vm_compute. reflexivity.
Qed.

(** ** Two payments out of one coin *)

(** C1, the code at the failing input.  Alice owns one output of 5000.  Two
    payments that both spend it are admitted to the mempool, since each is
    verified against the confirmed outputs only, and [mineBlock] confirms
    both: the state reached has two confirmed transactions that consume the
    same key, and Alice's balance has grown from 5000 to 10020. *)
Theorem double_spend_reachable :
  reachable Demo.registry Demo.node3
  ∧ doubleSpend Demo.node3
  ∧ getBalance Demo.node0 Demo.alice = 5000%float
  ∧ getBalance Demo.node3 Demo.alice = 10020%float
  ∧ getBalance Demo.node3 Demo.bob = 10%float
  ∧ getBalance Demo.node3 Demo.carol = 20%float.
Proof.
  split; [| split].
  - eapply (reach_mineBlock _ Demo.node2 4 (mkClock 3000 3029 4) Demo.alice Demo.block1).
    + eapply (reach_addToMempool _ Demo.node1 Demo.toCarol (Returned true)).
      * eapply (reach_addToMempool _ Demo.node0 Demo.toBob (Returned true)).
        -- eapply (reach_initialize _ 4 (mkClock 1000 1021 3) 1 Demo.alice Demo.genesis).
           vm_compute. reflexivity.
        -- vm_compute. reflexivity.
      * vm_compute. reflexivity.
    + vm_compute. reflexivity.
  - exists 0, 1, Demo.toBob, Demo.toCarol, Demo.aliceCoin, Demo.aliceCoin.
    split; [lia |].
    split; [vm_compute; reflexivity |].
    split; [vm_compute; reflexivity |].
    split; [apply list_elem_of_In; vm_compute; left; reflexivity |].
    split; [apply list_elem_of_In; vm_compute; left; reflexivity |].
    split; reflexivity.
  - split; [vm_compute; reflexivity |]. split; [vm_compute; reflexivity |].
    split; vm_compute; reflexivity.
Qed.

(** * Further properties *)

(** ** MerkleTree: the shape of roots and proofs *)

Lemma or_else_self (x : string) : Js.or_else (Some x) x = x.
Proof. destruct x; reflexivity. Qed.

Lemma nextLevel_trailing_duplicate (x : string) : ∀ l,
  Nat.even (length l) = true → nextLevel (l ++ [x; x]) = nextLevel (l ++ [x]).
Proof.
  induction l as [|a|a b l IH] using pair_ind; intros Hl.
  - cbn [app nextLevel]. now rewrite or_else_self.
  - discriminate.
  - cbn [app nextLevel]. rewrite IH; [reflexivity | exact Hl].
Qed.

(** Any two amounts of fuel that cover the level give the same result. *)
Lemma rootLoop_enough fuel : ∀ fuel' level,
  length level ≤ S fuel → length level ≤ S fuel' →
  rootLoop fuel level = rootLoop fuel' level.
Proof.
  induction fuel as [|f IH]; intros fuel' level H H'.
  - destruct fuel' as [|f']; [reflexivity |]. simpl.
    destruct (Nat.ltb_spec 1 (length level)); [lia | reflexivity].
  - simpl. destruct (Nat.ltb_spec 1 (length level)) as [Hlt|Hge].
    + destruct fuel' as [|f']; [lia |]. simpl.
      destruct (Nat.ltb_spec 1 (length level)); [| lia].
      pose proof (nextLevel_shorter level Hlt). apply IH; lia.
    + destruct fuel' as [|f']; [reflexivity |]. simpl.
      destruct (Nat.ltb_spec 1 (length level)); [lia | reflexivity].
Qed.

(** X1.  The duplicate-last-leaf rule makes two different lists share a
    root: a list of odd length above 1, and the same list with its last
    leaf repeated. *)
Theorem computeRoot_trailing_duplicate (l : list string) (x : string) :
  Nat.even (length l) = true → 0 < length l →
  computeRoot (l ++ [x; x]) = computeRoot (l ++ [x]).
Proof.
  intros Heven Hpos. unfold computeRoot.
  rewrite !length_app. cbn [length].
  destruct (Nat.eqb_spec (length l + 2) 0) as [|_]; [lia |].
  destruct (Nat.eqb_spec (length l + 1) 0) as [|_]; [lia |].
  f_equal.
  replace (length l + 2) with (S (length l + 1)) by lia.
  replace (length l + 1) with (S (length l)) at 2 by lia.
  cbn [rootLoop]. rewrite !length_app. cbn [length].
  destruct (Nat.ltb_spec 1 (length l + 2)); [| lia].
  destruct (Nat.ltb_spec 1 (length l + 1)); [| lia].
  rewrite nextLevel_trailing_duplicate by exact Heven.
  pose proof (nextLevel_shorter (l ++ [x])) as Hs.
  rewrite length_app in Hs. cbn [length] in Hs.
  apply rootLoop_enough; lia.
Qed.

Lemma computeRoot_trailing_duplicate_witness :
  computeRoot ([sha256 "tx-a"; sha256 "tx-b"] ++ [sha256 "tx-c"; sha256 "tx-c"])
  = computeRoot ([sha256 "tx-a"; sha256 "tx-b"] ++ [sha256 "tx-c"]).
Proof.
  apply (computeRoot_trailing_duplicate [sha256 "tx-a"; sha256 "tx-b"] (sha256 "tx-c")).
  - reflexivity.
  - simpl. lia.
Defined.

Lemma proofPass_one l : ∀ i idx,
  Nat.even i = true → i ≤ idx → idx < i + length l →
  length (snd (proofPass idx i l)) = 1.
Proof.
  induction l as [|a|a b l IH] using pair_ind; intros i idx Hi Hle Hlt.
  - simpl in Hlt. lia.
  - simpl in Hlt. assert (idx = i) as -> by lia.
    cbn [proofPass snd]. now rewrite pushStep_even.
  - cbn [proofPass]. pose proof (proofPass_skip idx l (i + 2)) as Hskip.
    specialize (IH (i + 2) idx).
    destruct (proofPass idx (i + 2) l) as [next pushed]. cbn [snd] in *.
    assert (Hi2 : Nat.even (i + 2) = true) by (rewrite Nat.even_add, Hi; reflexivity).
    rewrite length_app. simpl in Hlt.
    destruct (decide (idx = i)) as [->|Hne1].
    { rewrite pushStep_even, Hskip by (auto; lia). reflexivity. }
    destruct (decide (idx = S i)) as [->|Hne2].
    { rewrite pushStep_odd, Hskip by (auto; lia). reflexivity. }
    rewrite pushStep_skip by (auto; lia). simpl. apply IH; auto; lia.
Qed.

Lemma pow2_step (n k : nat) :
  2 ≤ n →
  Nat.div2 (S n) ≤ 2 ^ k → 2 ^ k < 2 * Nat.div2 (S n) →
  n ≤ 2 ^ S k ∧ 2 ^ S k < 2 * n.
Proof.
  intros Hn Hlo Hhi. rewrite Nat.div2_div in *.
  pose proof (Nat.div_mod_eq (S n) 2) as Hd.
  pose proof (Nat.mod_upper_bound (S n) 2 ltac:(lia)) as Hm.
  rewrite Nat.pow_succ_r'. split; [lia |].
  destruct k as [|k].
  - simpl in *. lia.
  - rewrite Nat.pow_succ_r' in *. lia.
Qed.

Lemma proofLoop_length fuel : ∀ level idx,
  length level ≤ S fuel → idx < length level →
  length level ≤ 2 ^ length (proofLoop fuel level idx)
  ∧ 2 ^ length (proofLoop fuel level idx) < 2 * length level.
Proof.
  induction fuel as [|f IH]; intros level idx Hfuel Hidx.
  - simpl. lia.
  - cbn [proofLoop]. destruct (Nat.ltb_spec 1 (length level)) as [Hlt|Hge].
    + pose proof (proofPass_next idx 0 level) as Hnext.
      pose proof (proofPass_one level 0 idx eq_refl ltac:(lia) ltac:(lia)) as Hone.
      destruct (proofPass idx 0 level) as [next pushed]. cbn [fst snd] in *. subst next.
      rewrite length_app, Hone.
      pose proof (nextLevel_length level) as HL.
      pose proof (nextLevel_shorter level Hlt) as HS.
      assert (Hidx2 : idx / 2 < length (nextLevel level)).
      { rewrite HL, Nat.div2_div. apply Nat.Div0.div_lt_upper_bound.
        pose proof (Nat.div_mod_eq (S (length level)) 2).
        pose proof (Nat.mod_upper_bound (S (length level)) 2 ltac:(lia)). lia. }
      destruct (IH (nextLevel level) (idx / 2) ltac:(lia) Hidx2) as [Hlo Hhi].
      rewrite HL in Hlo, Hhi.
      change (1 + length (proofLoop f (nextLevel level) (idx / 2)))
        with (S (length (proofLoop f (nextLevel level) (idx / 2)))).
      apply pow2_step; [lia | exact Hlo | exact Hhi].
    + simpl. lia.
Qed.

(** X2.  The proof that [getProof] builds for an index inside the list has
    one step per level: its length [k] is the least with
    [length leaves ≤ 2 ^ k]. *)
Theorem getProof_length (leaves : list string) (i : nat) :
  i < length leaves →
  length leaves ≤ 2 ^ length (getProof leaves i)
  ∧ 2 ^ length (getProof leaves i) < 2 * length leaves.
Proof.
  intros Hi. unfold getProof.
  destruct (Nat.leb_spec (length leaves) 1) as [Hle|Hgt].
  - simpl. lia.
  - apply proofLoop_length; lia.
Qed.

Lemma getProof_length_witness :
  length [sha256 "a"; sha256 "b"; sha256 "c"; sha256 "d"; sha256 "e"]
    ≤ 2 ^ length (getProof [sha256 "a"; sha256 "b"; sha256 "c"; sha256 "d"; sha256 "e"] 4)
  ∧ 2 ^ length (getProof [sha256 "a"; sha256 "b"; sha256 "c"; sha256 "d"; sha256 "e"] 4)
    < 2 * length [sha256 "a"; sha256 "b"; sha256 "c"; sha256 "d"; sha256 "e"].
Proof.
  apply (getProof_length [sha256 "a"; sha256 "b"; sha256 "c"; sha256 "d"; sha256 "e"] 4).
  simpl. lia.
Defined.

(** ** Block.mine: which nonce it stops at *)

Lemma sameBody_mineStep b : sameBody b (mineStep b).
Proof. repeat split. Qed.

Lemma mineLoop_least fuel : ∀ b attempts b' attempts',
  (blk_nonce b < 2 ^ 53)%N →
  mineLoop fuel b attempts = Some (b', attempts') →
  (blk_nonce b < blk_nonce b' ≤ 2 ^ 53)%N
  ∧ (attempts' - attempts = blk_nonce b' - blk_nonce b)%N
  ∧ (attempts < attempts')%N
  ∧ qualifies b (blk_nonce b') = true
  ∧ (∀ k, (blk_nonce b < k < blk_nonce b')%N → qualifies b k = false)
  ∧ sameBody b b'.
Proof.
  induction fuel as [|f IH]; intros b a b' a' Hlt H; [discriminate |].
  rewrite mineLoop_S in H.
  pose proof (mineStep_test b Hlt) as Ht.
  assert (Hnonce : blk_nonce (mineStep b) = (blk_nonce b + 1)%N)
    by (unfold mineStep; simpl; now rewrite incr_below).
  destruct (Js.startsWith (blk_hash (mineStep b)) _) eqn:E.
  - injection H as <- <-. rewrite Hnonce.
    split; [lia |]. split; [lia |]. split; [lia |]. split; [congruence |].
    split; [intros k Hk; lia | apply sameBody_mineStep].
  - destruct (N.eq_dec (blk_nonce b + 1)%N (2 ^ 53)%N) as [Htop|Hnot].
    + exfalso. rewrite mineLoop_stuck in H; [discriminate | congruence |].
      rewrite mineStep_qualifies, <- Htop. congruence.
    + destruct (IH (mineStep b) (a + 1)%N b' a' ltac:(lia) H)
        as (Hn & Ha & Ha' & Hq & Hleast & Hbody).
      rewrite Hnonce in *. rewrite mineStep_qualifies in Hq.
      split; [lia |]. split; [lia |]. split; [lia |]. split; [exact Hq |].
      split; [| exact Hbody].
      intros k Hk. destruct (N.eq_dec k (blk_nonce b + 1)%N) as [->|Hk'].
      * congruence.
      * rewrite <- (mineStep_qualifies b k). apply Hleast. lia.
Qed.

(** X3.  [mine], started below the top of the counter, stops at the least
    qualifying nonce above the one it started from, reports as many
    attempts as it advanced the nonce, and changes nothing else of the
    block but [hash] and [miningTime]. *)
Theorem mine_least_nonce (fuel : nat) (elapsed : N) (b b' : Block) (attempts : N) :
  (blk_nonce b < 2 ^ 53)%N →
  mine fuel elapsed b = Some (b', attempts) →
  (blk_nonce b < blk_nonce b')%N
  ∧ attempts = (blk_nonce b' - blk_nonce b)%N
  ∧ qualifies b (blk_nonce b') = true
  ∧ (∀ k, (blk_nonce b < k < blk_nonce b')%N → qualifies b k = false)
  ∧ blk_miningTime b' = elapsed
  ∧ sameBody b b'.
Proof.
  intros Hlt H. unfold mine in H.
  destruct (mineLoop fuel b 0) as [[b1 a1]|] eqn:E; [| discriminate].
  injection H as <- <-.
  destruct (mineLoop_least _ _ _ _ _ Hlt E) as (Hn & Ha & _ & Hq & Hleast & Hbody).
  split; [simpl; lia |]. split; [rewrite N.sub_0_r in Ha; exact Ha |].
  split; [exact Hq |]. split; [exact Hleast |]. split; [reflexivity | exact Hbody].
Qed.

Lemma mine_least_nonce_witness :
  (0 < blk_nonce Demo.genesis)%N
  ∧ 1%N = (blk_nonce Demo.genesis - 0)%N
  ∧ qualifies (newBlock 1021 0 zeros64 (blk_transactions Demo.genesis) 1)
              (blk_nonce Demo.genesis) = true
  ∧ (∀ k, (0 < k < blk_nonce Demo.genesis)%N →
          qualifies (newBlock 1021 0 zeros64 (blk_transactions Demo.genesis) 1) k = false)
  ∧ blk_miningTime Demo.genesis = 3%N
  ∧ sameBody (newBlock 1021 0 zeros64 (blk_transactions Demo.genesis) 1) Demo.genesis.
Proof.
  apply (mine_least_nonce 4 3 (newBlock 1021 0 zeros64 (blk_transactions Demo.genesis) 1)
           Demo.genesis 1).
  - vm_compute. reflexivity.
  - vm_compute. reflexivity.
Defined.

(** X4.  With difficulty 0 the target is the empty prefix: [mine] returns
    after a single attempt, at the nonce after the one it started from. *)
Theorem mine_difficulty_zero (fuel : nat) (elapsed : N) (b : Block) :
  blk_difficulty b = 0%N →
  mine (S fuel) elapsed b
  = Some (set_miningTime (mineStep b) elapsed, 1%N)
  ∧ blk_nonce (mineStep b) = Js.incr (blk_nonce b).
Proof.
  intros Hd. unfold mine. rewrite mineLoop_S.
  assert (E : target (blk_difficulty (mineStep b)) = "").
  { change (blk_difficulty (mineStep b)) with (blk_difficulty b). now rewrite Hd. }
  rewrite E. unfold Js.startsWith.
  destruct (blk_hash (mineStep b)); split; reflexivity.
Qed.

Lemma mine_difficulty_zero_witness :
  mine 1 0 (newBlock 5 1 zeros64 [] 0)
  = Some (set_miningTime (mineStep (newBlock 5 1 zeros64 [] 0)) 0, 1%N)
  ∧ blk_nonce (mineStep (newBlock 5 1 zeros64 [] 0))
    = Js.incr (blk_nonce (newBlock 5 1 zeros64 [] 0)).
Proof.
  apply (mine_difficulty_zero 0 0 (newBlock 5 1 zeros64 [] 0)). reflexivity.
Defined.

(** ** What every state of a node satisfies *)

Lemma last_with_default {A} (l : list A) (a : A) : last (a :: l) = Some (List.last l a).
Proof.
  revert a. induction l as [|b l IH]; intros a; [reflexivity |].
  change (last (a :: b :: l)) with (last (b :: l)).
  now rewrite IH, last_cons_default.
Qed.

(** What [mineBlock] does, once the search has returned. *)
Lemma mineBlock_returned fuel clock bc address block bc' :
  mineBlock fuel clock bc address = Some (Returned (block, bc')) →
  ∃ tip attempts,
    last (chain bc) = Some tip
    ∧ mine fuel (elapsed clock)
        (newBlock (blockTime clock) (N.of_nat (length (chain bc))) (blk_hash tip)
           (createCoinbase (txTime clock) address MINING_REWARD
              (N.of_nat (length (chain bc))) :: mempool bc)
           (difficulty bc))
      = Some (block, attempts)
    ∧ bc' = recordMining (set_mempool (pushBlock bc block) []) attempts (elapsed clock).
Proof.
  unfold mineBlock. destruct (last (chain bc)) as [tip|]; [| discriminate].
  destruct (mine _ _ _) as [[b a]|] eqn:E; [| discriminate].
  intros H. injection H as <- <-. exists tip, a. auto.
Qed.

Lemma initialize_returned fuel clock bc address genesis bc' :
  initialize fuel clock bc address = Some (genesis, bc') →
  ∃ attempts,
    mine fuel (elapsed clock)
      (newBlock (blockTime clock) 0 zeros64
         [createCoinbase (txTime clock) address (MINING_REWARD * 100) 0] (difficulty bc))
    = Some (genesis, attempts)
    ∧ bc' = recordMining (pushBlock bc genesis) attempts (elapsed clock).
Proof.
  unfold initialize. destruct (mine _ _ _) as [[b a]|] eqn:E; [| discriminate].
  intros H. injection H as <- <-. exists a. auto.
Qed.

(** A block that [mine] returned passes the checks of [validateChain]
    behind the block whose hash it was built on. *)
Lemma mined_checkBlock fuel elapsed now height tip txs d block attempts :
  mine fuel elapsed (newBlock now height (blk_hash tip) txs d) = Some (block, attempts) →
  checkBlock tip block = None.
Proof.
  intros H. pose proof (mine_sealed _ _ _ _ _ H) as [Hhash Hpow].
  pose proof (mine_sameBody _ _ _ _ _ H) as (_ & Hprev & Htxs & _ & _ & Hroot).
  simpl in Hprev, Htxs, Hroot.
  unfold checkBlock. rewrite Hprev, String.eqb_refl, Hpow, <- Hhash, String.eqb_refl.
  rewrite Htxs, Hroot, String.eqb_refl. reflexivity.
Qed.

(** X5.  Every chain that a node built by [initialize] and [mineBlock]
    alone, whatever it admitted to its mempool, passes [validateChain]. *)
Theorem reachable_validateChain (reg : Registry) (bc : Blockchain) :
  reachable reg bc → validateChain bc = Valid.
Proof.
  intros H.
  assert (∃ genesis rest, chain bc = genesis :: rest
                          ∧ validateFrom 1 genesis rest = Valid) as (g & rest & Hc & Hv).
  { induction H as [fuel clock d address genesis bc Hinit
                   | bc tx result bc' _ IH Hadd
                   | bc fuel clock address block bc' _ IH Hmine].
    - apply initialize_returned in Hinit as (a & _ & ->).
      exists genesis, []. split; reflexivity.
    - destruct IH as (g & rest & Hc & Hv). exists g, rest.
      unfold addToMempool in Hadd.
      destruct (negb (tx_isCoinbase tx) && negb (verify reg (utxoSet bc) tx));
        injection Hadd as _ <-; auto.
    - destruct IH as (g & rest & Hc & Hv).
      apply mineBlock_returned in Hmine as (tip & a & Htip & Hmine & ->).
      exists g, (rest ++ [block]). cbn [recordMining set_mempool pushBlock chain].
      rewrite Hc. split; [reflexivity |].
      rewrite validateFrom_app, Hv. cbn [validateFrom].
      rewrite Hc, last_with_default in Htip. injection Htip as <-.
      now rewrite (mined_checkBlock _ _ _ _ _ _ _ _ _ Hmine). }
  unfold validateChain. now rewrite Hc.
Qed.

Lemma reachable_validateChain_witness : validateChain Demo.node3 = Valid.
Proof.
  apply (reachable_validateChain Demo.registry Demo.node3).
  eapply (reach_mineBlock _ Demo.node2 4 (mkClock 3000 3029 4) Demo.alice Demo.block1).
  - eapply (reach_addToMempool _ Demo.node1 Demo.toCarol (Returned true)).
    + eapply (reach_addToMempool _ Demo.node0 Demo.toBob (Returned true)).
      * eapply (reach_initialize _ 4 (mkClock 1000 1021 3) 1 Demo.alice Demo.genesis).
        by_decision.
      * by_decision.
    + by_decision.
  - by_decision.
Defined.

Lemma builtAt_mined fuel elapsed now i prev now' address rest d block attempts :
  mine fuel elapsed
    (newBlock now (N.of_nat i) prev
       (createCoinbase now' address (rewardAt i) (N.of_nat i) :: rest) d)
  = Some (block, attempts) →
  builtAt d i block.
Proof.
  intros H. pose proof (mine_sealed _ _ _ _ _ H) as Hsealed.
  pose proof (mine_sameBody _ _ _ _ _ H) as (Hh & _ & Htxs & Hd & _ & Hroot).
  simpl in Hh, Htxs, Hd, Hroot.
  split; [exact Hh |]. split; [exact Hd |]. split; [exact Hsealed |].
  split; [now rewrite Hroot, Htxs |]. exists now', address, rest. exact Htxs.
Qed.

(** X6.  In a chain that a node built by [initialize] and [mineBlock]
    alone, the chain is not empty and the block at index [i] has height
    [i], is sealed at the node's difficulty, carries the Merkle root of its
    transactions, and starts with the coinbase of its height: 5000 for the
    genesis block, 50 for the others. *)
Theorem reachable_blocks_built (reg : Registry) (bc : Blockchain) :
  reachable reg bc →
  chain bc ≠ []
  ∧ ∀ i b, chain bc !! i = Some b → builtAt (difficulty bc) i b.
Proof.
  induction 1 as [fuel clock d address genesis bc Hinit
                 | bc tx result bc' _ IH Hadd
                 | bc fuel clock address block bc' _ IH Hmine].
  - apply initialize_returned in Hinit as (a & Hmine & ->).
    cbn [recordMining pushBlock chain difficulty newBlockchain app].
    split; [discriminate |]. intros i b Hb.
    destruct i as [|i]; [| discriminate]. injection Hb as <-.
    apply (builtAt_mined _ _ _ 0 _ _ _ [] _ _ _ Hmine).
  - unfold addToMempool in Hadd.
    destruct (negb (tx_isCoinbase tx) && negb (verify reg (utxoSet bc) tx));
      injection Hadd as _ <-; exact IH.
  - destruct IH as [Hne IH].
    apply mineBlock_returned in Hmine as (tip & a & Htip & Hmine & ->).
    cbn [recordMining set_mempool pushBlock chain difficulty].
    split; [destruct (chain bc); discriminate |]. intros i b Hb.
    apply lookup_app_Some in Hb as [Hb | [Hlen Hb]]; [now apply IH |].
    destruct (i - length (chain bc)) as [|k] eqn:Ek; [| discriminate].
    injection Hb as <-. assert (i = length (chain bc)) as -> by lia.
    destruct (length (chain bc)) as [|n] eqn:El.
    { destruct (chain bc); [congruence | discriminate]. }
    apply (builtAt_mined _ _ _ (S n) _ _ _ _ _ _ _ Hmine).
Qed.

Lemma reachable_blocks_built_witness :
  chain Demo.node0 ≠ []
  ∧ ∀ i b, chain Demo.node0 !! i = Some b → builtAt (difficulty Demo.node0) i b.
Proof.
  apply (reachable_blocks_built Demo.registry Demo.node0).
  eapply (reach_initialize _ 4 (mkClock 1000 1021 3) 1 Demo.alice Demo.genesis).
  by_decision.
Defined.

(** ** Two nodes: a block and a chain on the wire *)

Lemma serializeTx_id tx : serializeTx tx = tx.
Proof. destruct tx; reflexivity. Qed.

Lemma restore_serialize block : restoreBlock (serializeBlock block) = block.
Proof.
  destruct block as [h p txs d t m n hs mt]. unfold restoreBlock, serializeBlock. simpl.
  f_equal. rewrite List.map_map. rewrite <- (List.map_id txs) at 2.
  apply List.map_ext. intros tx. now rewrite serializeTx_id, restoreTx_id.
Qed.

Lemma restore_serialize_all blocks :
  List.map restoreBlock (List.map serializeBlock blocks) = blocks.
Proof.
  rewrite List.map_map. rewrite <- (List.map_id blocks) at 2.
  apply List.map_ext, restore_serialize.
Qed.





(** ** Handshakes and peer lists *)

Lemma handleMessage_handshook self now reg node ws' msg node' actions ws :
  handleMessage self now reg node ws' msg = Returned (node', actions) →
  handshook node ws → handshook node' ws.
Proof.
  unfold handleMessage, handshook. intros H (info & Hinfo & Hdone).
  destruct (msg_body msg) as [c|addrs|bd|txd| |cd| |].
  - injection H as <- _. cbn [peers].
    destruct (decide (ws' = ws)) as [->|Hne].
    + eexists. rewrite lookup_insert_eq. split; reflexivity.
    + exists info. rewrite lookup_insert_ne by exact Hne. auto.
  - injection H as <- _. eauto.
  - destruct (handleNewBlock (ledger node) bd) as [[bc effs]|e]; [| discriminate].
    injection H as <- _. eauto.
  - destruct (handleNewTx reg (ledger node) txd) as [bc effs].
    injection H as <- _. eauto.
  - injection H as <- _. eauto.
  - destruct (handleChainResponse (ledger node) cd) as [bc effs].
    injection H as <- _. eauto.
  - injection H as <- _. eauto.
  - injection H as <- _. eauto.
Qed.

Lemma handles_handshook self reg node node' ws :
  handles self reg node node' → handshook node ws → handshook node' ws.
Proof.
  induction 1 as [|node now ws' msg node' actions node'' Hstep _ IH]; [auto |].
  intros H. eapply IH, handleMessage_handshook; eauto.
Qed.

(** X12.  A node answers the handshakes of a connection with one HANDSHAKE
    of its own: the first one on a socket whose entry is not marked is
    answered, and once a handshake has been handled on a socket, no later
    one on that socket is answered with a HANDSHAKE, whatever other
    messages the node handled in between. *)
Theorem handshake_answered_once (self : string) (reg : Registry) (now now' : N)
    (node node1 node2 : Node) (ws : nat) (sender sender' : string)
    (c c' : option N) (actions : list action) :
  handleMessage self now reg node ws (mkEnvelope (HANDSHAKE c) sender)
  = Returned (node1, actions) →
  handles self reg node1 node2 →
  (¬ handshook node ws →
     ∃ rest, actions
             = Send ws (HANDSHAKE (Some (N.of_nat (length (chain (ledger node)))))) :: rest
             ∧ ∀ n, Send ws (HANDSHAKE n) ∉ rest)
  ∧ ∃ node3 actions',
      handleMessage self now' reg node2 ws (mkEnvelope (HANDSHAKE c') sender')
      = Returned (node3, actions')
      ∧ ∀ n, Send ws (HANDSHAKE n) ∉ actions'.
Proof.
  intros H1 Hmore.
  assert (Hreq : ∀ (here : N) n,
            Send ws (HANDSHAKE n)
            ∉ match c' with
              | Some k => if (here <? k)%N then [Send ws REQUEST_CHAIN] else []
              | None => []
              end).
  { intros here n Hin. destruct c' as [k|]; [| inversion Hin].
    destruct (here <? k)%N; [| inversion Hin].
    apply list_elem_of_singleton in Hin. discriminate. }
  split.
  - intros Hnot. unfold handleMessage in H1. cbn [msg_body msg_sender] in H1.
    assert (E : match peers node !! ws with
                | Some existingPeer => peer_handshakeDone existingPeer
                | None => false
                end = false).
    { destruct (peers node !! ws) as [info|] eqn:Ei; [| reflexivity].
      destruct (peer_handshakeDone info) eqn:Ed; [| reflexivity].
      exfalso. apply Hnot. exists info. auto. }
    rewrite E in H1. injection H1 as _ <-. eexists. split; [reflexivity |].
    intros n Hin. destruct c as [k|]; [| inversion Hin].
    destruct (_ <? k)%N; [| inversion Hin].
    apply list_elem_of_singleton in Hin. discriminate.
  - assert (Hdone : handshook node2 ws).
    { eapply handles_handshook; [exact Hmore |].
      unfold handleMessage in H1. cbn [msg_body] in H1. injection H1 as <- _.
      eexists. cbn [peers]. rewrite lookup_insert_eq. split; reflexivity. }
    destruct Hdone as (info & Hinfo & Hd).
    unfold handleMessage. cbn [msg_body msg_sender]. rewrite Hinfo, Hd.
    eexists _, _. split; [reflexivity |]. cbn [app]. intros n. apply Hreq.
Qed.

Lemma handshake_answered_once_witness :
  ∃ node3 actions',
    handleMessage "ws://b" 9 Demo.registry
      (mkNode Demo.node0 {[ 1 := mkPeer "ws://a" 5 (Some 2%N) true ]}) 1
      (mkEnvelope (HANDSHAKE (Some 2%N)) "ws://a")
    = Returned (node3, actions')
    ∧ ∀ n, Send 1 (HANDSHAKE n) ∉ actions'.
Proof.
  refine (proj2 (handshake_answered_once "ws://b" Demo.registry 5 9
                   (mkNode Demo.node0 ∅)
                   (mkNode Demo.node0 {[ 1 := mkPeer "ws://a" 5 (Some 2%N) true ]})
                   (mkNode Demo.node0 {[ 1 := mkPeer "ws://a" 5 (Some 2%N) true ]})
                   1 "ws://a" "ws://a" (Some 2%N) (Some 2%N)
                   [Send 1 (HANDSHAKE (Some 1%N)); Send 1 REQUEST_CHAIN] _ _)).
  - by_decision.
  - apply handles_none.
Defined.

(** X13.  The handshake exchange of two nodes.  The dialer greets when its
    socket opens; the listener answers the greeting; the dialer, whose
    entry for the socket is not marked yet, answers that answer; the
    listener does not answer again.  Each handled handshake that announces
    a longer chain is followed by a REQUEST_CHAIN, so the listener asks
    twice when it is behind.  No ledger changes. *)
Theorem handshake_exchange (selfA selfB : string) (reg : Registry)
    (t1 t2 t3 t4 t5 : N) (A B : Node) (a b : nat) :
  let lenA := N.of_nat (length (chain (ledger A))) in
  let lenB := N.of_nat (length (chain (ledger B))) in
  let A1 := fst (onOpen t1 A a selfB) in
  let B0 := onConnection t2 B b in
  ∃ B1 A2 B2,
    snd (onOpen t1 A a selfB) = [Send a (HANDSHAKE (Some lenA))]
    ∧ handleMessage selfB t3 reg B0 b (mkEnvelope (HANDSHAKE (Some lenA)) selfA)
      = Returned (B1, Send b (HANDSHAKE (Some lenB)) :: requestIfBehind b lenB lenA)
    ∧ handleMessage selfA t4 reg A1 a (mkEnvelope (HANDSHAKE (Some lenB)) selfB)
      = Returned (A2, Send a (HANDSHAKE (Some lenA)) :: requestIfBehind a lenA lenB)
    ∧ handleMessage selfB t5 reg B1 b (mkEnvelope (HANDSHAKE (Some lenA)) selfA)
      = Returned (B2, requestIfBehind b lenB lenA)
    ∧ ledger A2 = ledger A ∧ ledger B2 = ledger B.
Proof.
  intros lenA lenB A1 B0. subst A1 B0.
  unfold handleMessage, onOpen, onConnection. cbn [msg_body msg_sender fst snd peers ledger].
  rewrite !lookup_insert_eq. cbn [peer_handshakeDone].
  eexists _, _, _. split; [reflexivity |]. split; [reflexivity |].
  split; [reflexivity |]. cbn [peers ledger]. rewrite lookup_insert_eq. cbn [peer_handshakeDone].
  split; [reflexivity |]. split; reflexivity.
Qed.

Lemma isPeerConnected_spec (ps : gmap nat PeerInfo) (address : string) :
  isPeerConnected ps address = true
  ↔ ∃ ws info, ps !! ws = Some info ∧ peer_address info = address.
Proof.
  unfold isPeerConnected.
  apply (map_fold_weak_ind
           (fun found (m : gmap nat PeerInfo) =>
              found = true ↔ ∃ ws info, m !! ws = Some info ∧ peer_address info = address)).
  - split; [discriminate |]. intros (ws & info & H & _). rewrite lookup_empty in H.
    discriminate.
  - intros ws info m found Hfresh IH. rewrite orb_true_iff, IH. split.
    + intros [(ws' & info' & H & Ha) | Ha].
      * exists ws', info'. split; [| exact Ha].
        rewrite lookup_insert_ne; [exact H |]. intros ->. congruence.
      * exists ws, info. rewrite lookup_insert_eq. split; [reflexivity |].
        now apply String.eqb_eq.
    + intros (ws' & info' & H & Ha).
      destruct (decide (ws = ws')) as [->|Hne].
      * rewrite lookup_insert_eq in H. injection H as ->. right. now apply String.eqb_eq.
      * rewrite lookup_insert_ne in H by exact Hne. left. eauto.
Qed.

(** X14.  A PEER_LIST message changes neither the ledger nor the peers;
    the node dials an address exactly when the address is listed, is not
    its own, and is the address of none of its peer entries. *)
Theorem peer_list_dials (self : string) (now : N) (reg : Registry) (node : Node)
    (ws : nat) (sender : string) (addresses : list string) :
  ∃ actions,
    handleMessage self now reg node ws (mkEnvelope (PEER_LIST addresses) sender)
    = Returned (node, actions)
    ∧ ∀ x, x ∈ actions
           ↔ ∃ address,
               x = Connect address
               ∧ address ∈ addresses
               ∧ address ≠ self
               ∧ ¬ ∃ ws' info, peers node !! ws' = Some info ∧ peer_address info = address.
Proof.
  unfold handleMessage. cbn [msg_body]. eexists. split; [reflexivity |].
  intros x. rewrite list_elem_of_In, in_flat_map. split.
  - intros (addr & Hin & Hx). unfold connectToPeer in Hx.
    destruct (String.eqb_spec addr self) as [|Hne]; [inversion Hx |].
    destruct (isPeerConnected (peers node) addr) eqn:E; [inversion Hx |].
    cbn [negb andb] in Hx. destruct Hx as [<-|[]].
    exists addr. split; [reflexivity |]. split; [now apply list_elem_of_In |].
    split; [exact Hne |]. intros Hc. apply isPeerConnected_spec in Hc. congruence.
  - intros (addr & -> & Hin & Hne & Hnc). exists addr.
    split; [now apply list_elem_of_In |]. unfold connectToPeer.
    apply String.eqb_neq in Hne. rewrite Hne.
    destruct (isPeerConnected (peers node) addr) eqn:E.
    + exfalso. apply Hnc. now apply isPeerConnected_spec.
    + left. reflexivity.
Qed.

(** ** Keys of the unspent-output map *)

Lemma append_nil_l (t : string) : "" +:+ t = t.
Proof. reflexivity. Qed.

Lemma digits_no_colon (d : Decimal.uint) (r t : string) :
  DecimalString.NilZero.string_of_uint d ≠ r +:+ ":" +:+ t.
Proof.
  unfold DecimalString.NilZero.string_of_uint.
  assert (H : ∀ d r t, DecimalString.NilEmpty.string_of_uint d ≠ r +:+ ":" +:+ t).
  { clear. induction d as [|d IH|d IH|d IH|d IH|d IH|d IH|d IH|d IH|d IH|d IH];
      intros [|c r] t; cbn [DecimalString.NilEmpty.string_of_uint];
      rewrite ?append_nil_l, ?append_cons; try discriminate;
      intros E; injection E as _ E; exact (IH _ _ E). }
  destruct d; try apply H.
  destruct r; rewrite ?append_nil_l, ?append_cons; [discriminate |].
  intros E. injection E as _ E. destruct r; rewrite ?append_nil_l, ?append_cons in E; discriminate.
Qed.

Lemma string_of_N_inj (m n : N) : Js.string_of_N m = Js.string_of_N n → m = n.
Proof.
  unfold Js.string_of_N. intros E.
  apply (f_equal DecimalString.NilZero.uint_of_string) in E.
  rewrite !DecimalString.NilZero.usu in E.
  - injection E as E. apply (f_equal N.of_uint) in E.
    now rewrite !DecimalN.Unsigned.of_to in E.
  - destruct n as [|p]; [discriminate |].
    intros H. apply (f_equal N.of_uint) in H. rewrite DecimalN.Unsigned.of_to in H.
    discriminate.
  - destruct m as [|p]; [discriminate |].
    intros H. apply (f_equal N.of_uint) in H. rewrite DecimalN.Unsigned.of_to in H.
    discriminate.
Qed.

Lemma utxoKey_eq (h h' : string) (i i' : N) :
  utxoKey h i = utxoKey h' i' → h = h' ∧ i = i'.
Proof.
  unfold utxoKey. revert h'.
  induction h as [|c r IH]; intros [|c' r']; rewrite ?append_cons; intros E.
  - injection E as E. split; [reflexivity | now apply string_of_N_inj].
  - injection E as _ E. exfalso. exact (digits_no_colon _ _ _ E).
  - injection E as _ E. exfalso. symmetry in E. exact (digits_no_colon _ _ _ E).
  - injection E as -> E. destruct (IH _ E) as [-> ->]. auto.
Qed.

(** X15.  The key of an unspent output determines the transaction hash and
    the output index: two outputs share a key only when they are the same
    output of the same transaction hash, whatever characters the hash
    holds. *)
Theorem utxoKey_injective (txHash txHash' : string) (outputIndex outputIndex' : N) :
  utxoKey txHash outputIndex = utxoKey txHash' outputIndex'
  ↔ txHash = txHash' ∧ outputIndex = outputIndex'.
Proof.
  split; [apply utxoKey_eq | now intros [-> ->]].
Qed.

(** ** The first block of a chain *)

(** X18.  [validateChain] starts at index 1: a chain of at most one block
    is valid whatever the block holds, and of the first block of a longer
    chain only the [hash] field is read, so replacing every other field of
    it (its transactions, its proof-of-work fields) changes nothing in the
    verdict. *)
Theorem validateChain_skips_first (bc : Blockchain) :
  (length (chain bc) ≤ 1 → validateChain bc = Valid)
  ∧ ∀ first first' rest,
      chain bc = first :: rest →
      blk_hash first' = blk_hash first →
      validateChain (set_chain bc (first' :: rest)) = validateChain bc.
Proof.
  unfold validateChain. split.
  - destruct (chain bc) as [|first [|second rest]]; cbn [length]; [reflexivity.. | lia].
  - intros first first' rest -> Hhash. cbn [set_chain chain].
    destruct rest as [|second rest]; [reflexivity |].
    cbn [validateFrom]. unfold checkBlock. now rewrite Hhash.
Qed.

Lemma validateChain_skips_first_witness :
  validateChain
    (set_chain Demo.node3
       (set_transactions Demo.genesis [Demo.freeMoney] :: tl (chain Demo.node3)))
  = validateChain Demo.node3.
Proof.
  refine (proj2 (validateChain_skips_first Demo.node3) Demo.genesis
            (set_transactions Demo.genesis [Demo.freeMoney]) (tl (chain Demo.node3)) _ _).
  - by_decision.
  - reflexivity.
Defined.
